(** * dbt-jobs-as-code exporter: a shallow embedding of
      [src/dbt_jobs_as_code/exporter/export.py]

    Python strings are sequences of Unicode code points; a code point is a
    number in [N] and a [text] is a list of them.  Every string function of
    the Python runtime the exporter calls ([str.lower], [str.replace],
    [str.strip], [str.split], the two [re.sub] calls) is written out on that
    representation. *)

From Stdlib Require Import Strings.String Strings.Ascii NArith List.
From Stdlib Require Import DecimalString DecimalN DecimalFacts.
From stdpp Require Import base numbers list gmap strings.

Local Open Scope N_scope.

Abbreviation text := (list N).

(** The code points of a literal written in the source. *)
Definition cps (s : string) : text :=
  N_of_ascii <$> list_ascii_of_string s.

(** ** Substrings *)

(** [starts_with p s]: [s.startswith(p)]. *)
Fixpoint starts_with (p s : text) : bool :=
  match p, s with
  | [], _ => true
  | _ :: _, [] => false
  | a :: p', b :: s' => (a =? b) && starts_with p' s'
  end.

(** [contains p s]: [p in s] on strings. *)
Fixpoint contains (p s : text) : bool :=
  starts_with p s ||
  match s with
  | [] => false
  | _ :: s' => contains p s'
  end.

(** The propositional reading of [contains]. *)
Definition occurs (p s : text) : Prop := ∃ a b, s = a ++ p ++ b.

(** ** [str.replace] *)

(** The scan of [str.replace(old, new)] for a non-empty [old]: leftmost
    matches, never overlapping.  [skip] counts the code points of a match
    that are still to be passed over. *)
Fixpoint replace_scan (old new : text) (skip : nat) (s : text) : text :=
  match s with
  | [] => []
  | c :: s' =>
    match skip with
    | S k => replace_scan old new k s'
    | O =>
      if starts_with old s
      then new ++ replace_scan old new (Nat.pred (length old)) s'
      else c :: replace_scan old new O s'
    end
  end.

(** [s.replace(old, new)].  With an empty [old] Python puts [new] before
    every code point and at the end. *)
Definition py_replace (old new s : text) : text :=
  match old with
  | [] => new ++ flat_map (λ c, c :: new) s
  | _ :: _ => replace_scan old new O s
  end.

(** ** [str.lower] *)

(** On ASCII, [str.lower] maps [A-Z] to [a-z] and fixes the rest. *)
Definition ascii_lower (c : N) : N :=
  if (65 <=? c) && (c <=? 90) then c + 32 else c.

Section Lower.
(** Above ASCII the lower-case mapping is a table of the Unicode database
    shipped with the interpreter; it is taken as a parameter.  It sees the
    code points before and after the one it maps (the final-sigma rule
    needs them) and may return several code points. *)
Variable unicode_lower : text → N → text → text.

Fixpoint lower_from (before s : text) : text :=
  match s with
  | [] => []
  | c :: s' =>
    (if c <? 128 then [ascii_lower c] else unicode_lower before c s')
      ++ lower_from (before ++ [c]) s'
  end.

(** [s.lower()]. *)
Definition py_lower (s : text) : text := lower_from [] s.
End Lower.

(** ** The two regular-expression substitutions and [str.strip] *)

Definition underscore : N := 95.

(** The character class [[a-z0-9_]]. *)
Definition is_ident_char (c : N) : bool :=
  ((97 <=? c) && (c <=? 122)) || ((48 <=? c) && (c <=? 57)) || (c =? underscore).

(** [re.sub(r'[^a-z0-9_]', '_', s)]: a negated class matches every code
    point outside it, line breaks included. *)
Definition sub_non_ident (s : text) : text :=
  (λ c, if is_ident_char c then c else underscore) <$> s.

(** [re.sub(r'_+', '_', s)]: every maximal run of underscores becomes one
    underscore; an underscore followed by another one is dropped. *)
Fixpoint sub_underscore_runs (s : text) : text :=
  match s with
  | [] => []
  | c :: s' =>
    if c =? underscore then
      match s' with
      | d :: _ => if d =? underscore then sub_underscore_runs s'
                  else c :: sub_underscore_runs s'
      | [] => [c]
      end
    else c :: sub_underscore_runs s'
  end.

Fixpoint drop_while (f : N → bool) (s : text) : text :=
  match s with
  | [] => []
  | c :: s' => if f c then drop_while f s' else s
  end.

(** [s.strip(chars)]: code points of [chars] are removed from both ends. *)
Definition py_strip (chars : N → bool) (s : text) : text :=
  rev (drop_while chars (rev (drop_while chars s))).

Definition is_underscore (c : N) : bool := c =? underscore.

(** ** [normalize_job_name_for_identifier] *)

Section Normalizer.
Variable unicode_lower : text → N → text → text.

Definition normalize_job_name_for_identifier (job_name : text) : text :=
  let normalized := py_replace (cps " ") (cps "_") (py_lower unicode_lower job_name) in
  let normalized := sub_non_ident normalized in
  let normalized := sub_underscore_runs normalized in
  let normalized := py_strip is_underscore normalized in
  normalized.
End Normalizer.

(** ** Values and the object store

    Dictionaries and lists are objects: a variable holds a reference, and two
    references to one object see each other's writes.  The store is the list
    of the objects allocated so far and a reference is an index into it.  A
    dictionary keeps its items in insertion order. *)

Abbreviation loc := nat.

Inductive value :=
  | VNone
  | VBool (b : bool)
  | VInt (z : Z)
  | VStr (s : text)
  | VRef (l : loc).

Inductive obj :=
  | ODict (items : list (text * value))
  | OList (elems : list value).

Abbreviation heap := (list obj).

Inductive exn :=
  | TypeError
  | AttributeError
  | ValueError (msg : text)
  | External (payload : text).

#[global] Instance value_eq_dec : EqDecision value.
Proof. solve_decision. Defined.
#[global] Instance obj_eq_dec : EqDecision obj.
Proof. solve_decision. Defined.
#[global] Instance exn_eq_dec : EqDecision exn.
Proof. solve_decision. Defined.

(** [d.get(k)] on the items of a dictionary. *)
Fixpoint dict_get (k : text) (items : list (text * value)) : option value :=
  match items with
  | [] => None
  | (k', v) :: items' => if decide (k' = k) then Some v else dict_get k items'
  end.

(** [d[k] = v] on the items of a dictionary: an existing key keeps its place,
    a new key goes to the end. *)
Fixpoint dict_set (k : text) (v : value) (items : list (text * value))
  : list (text * value) :=
  match items with
  | [] => [(k, v)]
  | (k', v') :: items' =>
    if decide (k' = k) then (k, v) :: items' else (k', v') :: dict_set k v items'
  end.

(** Computations on the store that may raise.  A raise keeps the writes made
    before it. *)
Definition M (A : Type) : Type := heap → (exn + A) * heap.

Definition ret {A} (a : A) : M A := λ h, (inr a, h).
Definition raise {A} (e : exn) : M A := λ h, (inl e, h).
Definition bind {A B} (m : M A) (k : A → M B) : M B :=
  λ h, match m h with
       | (inl e, h') => (inl e, h')
       | (inr a, h') => k a h'
       end.

Notation "x <- m ;; k" := (bind m (λ x, k))
  (at level 100, m at next level, right associativity, only parsing).
Notation "m ;;; k" := (bind m (λ _, k))
  (at level 100, right associativity, only parsing).

(** A new object; its reference is the next free index. *)
Definition alloc (o : obj) : M loc := λ h, (inr (length h), h ++ [o]).

(** Overwrites the object a reference points to. *)
Definition store (l : loc) (o : obj) : M unit := λ h, (inr tt, <[l := o]> h).

(** The items of the dictionary [d] refers to.  Subscripting or assigning
    into anything else (a scalar, a list indexed by a string) is a
    [TypeError]; so is the membership test on a number or [None]. *)
Definition dict_items (d : value) : M (loc * list (text * value)) :=
  λ h, match d with
       | VRef l =>
         match h !! l with
         | Some (ODict items) => (inr (l, items), h)
         | _ => (inl TypeError, h)
         end
       | _ => (inl TypeError, h)
       end.

(** ** [str.split] on a one-character separator *)

Fixpoint py_split (sep : N) (s : text) : list text :=
  match s with
  | [] => [[]]
  | c :: s' =>
    if c =? sep then [] :: py_split sep s'
    else match py_split sep s' with
         | [] => [[c]]
         | p :: ps => (c :: p) :: ps
         end
  end.

Definition dot : N := 46.

(** ** [apply_templated_fields] *)

(** The loop of [set_nested_value] over [parts[:-1]]: an absent part gets
    a new empty dictionary, then the walk moves into the value under the
    part, whatever it is. *)
Fixpoint descend (parts : list text) (d : value) : M value :=
  match parts with
  | [] => ret d
  | part :: parts' =>
    di <- dict_items d ;;
    match dict_get part di.2 with
    | None =>
      l <- alloc (ODict []) ;;
      store di.1 (ODict (dict_set part (VRef l) di.2)) ;;;
      descend parts' (VRef l)
    | Some v => descend parts' v
    end
  end.

Definition set_nested_value (d : value) (path : text) (v : value) : M unit :=
  let parts := py_split dot path in
  d <- descend (removelast parts) d ;;
  di <- dict_items d ;;
  store di.1 (ODict (dict_set (List.last parts []) v di.2)).

(** [job_dict.copy()]: dictionaries and lists have the method and give a new
    object with the same items; other values have no such attribute.  (A
    reference always points into the store; the last case is there for
    totality.) *)
Definition shallow_copy (v : value) : M value :=
  λ h, match v with
       | VRef l =>
         match h !! l with
         | Some o => (inr (VRef (length h)), h ++ [o])
         | None => (inl AttributeError, h)
         end
       | _ => (inl AttributeError, h)
       end.

Fixpoint set_all (result : value) (template_config : list (text * text)) : M unit :=
  match template_config with
  | [] => ret tt
  | (field_path, template_value) :: rest =>
    set_nested_value result field_path (VStr template_value) ;;;
    set_all result rest
  end.

(** The template maps field paths to strings ([Dict[str, str]]); its items
    come in the order of the template. *)
Definition apply_templated_fields
    (job_dict : value) (template_config : list (text * text)) : M value :=
  result <- shallow_copy job_dict ;;
  set_all result template_config ;;;
  ret result.

(** ** [escape_curly_braces] and [unescape_curly_braces] *)

Definition escape_curly_braces (yaml_str : text) : text :=
  py_replace (cps "}") (cps ">]>") (py_replace (cps "{") (cps "<[<") yaml_str).

Definition unescape_curly_braces (yaml_str : text) : text :=
  py_replace (cps ">]>") (cps "}") (py_replace (cps "<[<") (cps "{") yaml_str).

(** ** [export_jobs_yml] *)

(** A job definition as the exporter uses it: its name, and
    [to_load_format], which lives with the job schema.  The method builds its
    result in the store and may raise; what it raises is carried as a
    payload. *)
Record JobDefinition := {
  name : text;
  to_load_format : bool → heap → (text + value) * heap
}.

(** An entry of [duplicate_jobs]. *)
Record dup_record := {
  dup_name : text;
  dup_identifier : text;
  dup_base_key : text
}.

(** The local variables of the loop over the jobs: the dictionary under
    ["jobs"] of [export_yml] (reachable from this frame only, so kept out of
    the store), [user_keys], [duplicate_jobs], and the store. *)
Record loop_state := {
  export_jobs : list (text * value);
  user_keys : gset text;
  duplicate_jobs : list dup_record;
  objects : heap
}.

(** What a call of [export_jobs_yml] leaves behind: the exception it raised
    (if any), what it printed, what it logged, and its locals at that
    point. *)
Record run := {
  raised : option exn;
  stdout : text;
  log : list text;
  locals : loop_state
}.

(** [str(counter)] inside the f-string. *)
Definition decimal (n : N) : text := cps (NilEmpty.string_of_uint (N.to_uint n)).

(** [f"{base_key}_{counter}"]. *)
Definition suffixed (base_key : text) (counter : N) : text :=
  base_key ++ cps "_" ++ decimal counter.

(** The [while yaml_key in user_keys] loop, on the pair
    [(yaml_key, counter)].  [fuel] bounds the number of iterations;
    [probe_fuel] below shows that one more than the size of [user_keys] is
    never used up. *)
Fixpoint probe (fuel : nat) (keys : gset text) (base_key yaml_key : text)
    (counter : N) : text * N :=
  match fuel with
  | O => (yaml_key, counter)
  | S fuel' =>
    if decide (yaml_key ∈ keys)
    then probe fuel' keys base_key (suffixed base_key counter) (counter + 1)
    else (yaml_key, counter)
  end.

Definition nl : N := 10.

(** Whitespace for [str.strip()] without argument. *)
Definition is_space (c : N) : bool :=
  ((9 <=? c) && (c <=? 13)) || ((28 <=? c) && (c <=? 32))
  || (c =? 133) || (c =? 160) || (c =? 5760)
  || ((8192 <=? c) && (c <=? 8202)) || (c =? 8232) || (c =? 8233)
  || (c =? 8239) || (c =? 8287) || (c =? 12288).

Definition schema_comment : text :=
  cps "# yaml-language-server: $schema=https://raw.githubusercontent.com/dbt-labs/dbt-jobs-as-code/main/src/dbt_jobs_as_code/schemas/load_job_schema.json".

(** The head of the logged message; it starts with the cross mark U+274C. *)
Definition error_header : text :=
  10060 :: cps " Duplicate job names detected. Job names must be unique to avoid identifier conflicts. Please rename jobs to have unique names " ++ [nl].

Definition dup_line (dup : dup_record) : text :=
  cps "  - Job '" ++ dup_name dup ++ cps "' " ++ [nl].

Definition error_message (dups : list dup_record) : text :=
  foldl (λ msg dup, msg ++ dup_line dup) error_header dups.

Definition duplicate_error : exn :=
  ValueError (cps "Duplicate job names detected. Please rename jobs to have unique names.").

Section Exporter.
Variable unicode_lower : text → N → text → text.
(** [open(path).read()], the YAML parser on a template ([Dict[str, str]],
    in the order of the file; an empty document gives no items) and the
    YAML emitter on [export_yml], given by the items under ["jobs"]. *)
Variable read_file : text → text + text.
Variable yaml_load : text → text + list (text * text).
Variable yaml_dump : heap → list (text * value) → text.

Definition no_error (st : loop_state) : loop_state * option exn := (st, None).

(** One iteration of [for id, cloud_job in enumerate(jobs)]. *)
Definition loop_body (include_linked_id : bool)
    (template_config : list (text * text))
    (st : loop_state) (cloud_job : JobDefinition) : loop_state * option exn :=
  let base_key := normalize_job_name_for_identifier unicode_lower (name cloud_job) in
  let '(yaml_key, counter) :=
    probe (S (size (user_keys st))) (user_keys st) base_key base_key 1 in
  let duplicate_jobs' :=
    if 1 <? counter
    then duplicate_jobs st ++
         [{| dup_name := name cloud_job; dup_identifier := yaml_key;
             dup_base_key := base_key |}]
    else duplicate_jobs st in
  let user_keys' := {[yaml_key]} ∪ user_keys st in
  let st' h jobs' :=
    {| export_jobs := jobs'; user_keys := user_keys';
       duplicate_jobs := duplicate_jobs'; objects := h |} in
  match to_load_format cloud_job include_linked_id (objects st) with
  | (inl e, h) => (st' h (export_jobs st), Some (External e))
  | (inr job_dict, h) =>
    match template_config with
    | [] => no_error (st' h (dict_set yaml_key job_dict (export_jobs st)))
    | _ :: _ =>
      match apply_templated_fields job_dict template_config h with
      | (inl e, h') => (st' h' (export_jobs st), Some e)
      | (inr job_dict', h') =>
        no_error (st' h' (dict_set yaml_key job_dict' (export_jobs st)))
      end
    end
  end.

Fixpoint export_loop (include_linked_id : bool)
    (template_config : list (text * text))
    (jobs : list JobDefinition) (st : loop_state) : loop_state * option exn :=
  match jobs with
  | [] => (st, None)
  | cloud_job :: jobs' =>
    match loop_body include_linked_id template_config st cloud_job with
    | (st', Some e) => (st', Some e)
    | (st', None) => export_loop include_linked_id template_config jobs' st'
    end
  end.

Definition initial_state (h : heap) : loop_state :=
  {| export_jobs := []; user_keys := ∅; duplicate_jobs := []; objects := h |}.

(** Lines 67-74: the template is read only for a non-empty path. *)
Definition load_template (template_file : option text)
  : text + list (text * text) :=
  match template_file with
  | Some (_ :: _ as path) =>
    match read_file path with
    | inl e => inl e
    | inr content => yaml_load (escape_curly_braces content)
    end
  | _ => inr []
  end.

(** [export_jobs_yml], called with the store [h]. *)
Definition export_jobs_yml (jobs : list JobDefinition)
    (include_linked_id : bool) (template_file : option text) (h : heap) : run :=
  match load_template template_file with
  | inl e =>
    {| raised := Some (External e); stdout := []; log := [];
       locals := initial_state h |}
  | inr template_config =>
    match export_loop include_linked_id template_config jobs (initial_state h) with
    | (st, Some e) =>
      {| raised := Some e; stdout := []; log := []; locals := st |}
    | (st, None) =>
      match duplicate_jobs st with
      | _ :: _ =>
        {| raised := Some duplicate_error; stdout := [];
           log := [py_strip is_space (error_message (duplicate_jobs st))];
           locals := st |}
      | [] =>
        let yaml_str := unescape_curly_braces (yaml_dump (objects st) (export_jobs st)) in
        {| raised := None;
           stdout := (schema_comment ++ [nl]) ++ [nl] ++ yaml_str;
           log := []; locals := st |}
      end
    end
  end.
End Exporter.

(** ** A concrete environment for running the exporter

    A lower-case table that leaves non-ASCII code points alone, a file system
    without files, a parser that finds no field, an emitter for jobs whose
    fields are plain strings, and jobs whose [to_load_format] builds one
    dictionary of given fields. *)

Definition plain_lower : text → N → text → text := λ _ c _, [c].

Definition no_file : text → text + text := λ _, inl (cps "FileNotFoundError").

Definition no_fields : text → text + list (text * text) := λ _, inr [].

Definition dump_scalar (v : value) : text :=
  match v with
  | VStr s => s
  | VBool true => cps "true"
  | VBool false => cps "false"
  | _ => cps "null"
  end.

Definition dump_fields (h : heap) (v : value) : text :=
  match v with
  | VRef l =>
    match h !! l with
    | Some (ODict items) =>
      flat_map (λ kv, cps "    " ++ fst kv ++ cps ": " ++ dump_scalar (snd kv) ++ [nl]) items
    | _ => []
    end
  | _ => []
  end.

Definition plain_dump (h : heap) (jobs : list (text * value)) : text :=
  cps "jobs:" ++ [nl]
  ++ flat_map (λ kv, cps "  " ++ fst kv ++ cps ":" ++ [nl] ++ dump_fields h (snd kv)) jobs.

Definition job_with (job_name : string) (fields : list (text * value)) : JobDefinition :=
  {| name := cps job_name;
     to_load_format := λ _ h, (inr (VRef (length h)), h ++ [ODict fields]) |}.

Definition three_builds : list JobDefinition :=
  [job_with "Build" []; job_with "Build" []; job_with "Build" []].

(** The calls of [to_load_format] on their own, in job order: the values
    returned and the store they leave.  The sequence stops at the first job
    that raises. *)
Fixpoint serialize_all (include_linked_id : bool) (jobs : list JobDefinition)
    (h : heap) : list value * heap :=
  match jobs with
  | [] => ([], h)
  | cloud_job :: jobs' =>
    match to_load_format cloud_job include_linked_id h with
    | (inl _, h') => ([], h')
    | (inr job_dict, h') =>
      let r := serialize_all include_linked_id jobs' h' in
      (job_dict :: fst r, snd r)
    end
  end.

Definition sentinel_job : list JobDefinition :=
  [job_with "Nightly run" [(cps "description", VStr (cps "rows <[<new>]> only"))]].

(** ** Reading a value back

    The nested structure a value stands for in a store: what a reader of the
    dictionary sees.  [fuel] bounds the depth. *)

#[local] Unset Elimination Schemes.
Inductive tree :=
  | TNone
  | TBool (b : bool)
  | TInt (z : Z)
  | TStr (s : text)
  | TList (elems : list tree)
  | TDict (items : list (text * tree)).
#[local] Set Elimination Schemes.

Fixpoint read (fuel : nat) (h : heap) (v : value) : option tree :=
  match v with
  | VNone => Some TNone
  | VBool b => Some (TBool b)
  | VInt z => Some (TInt z)
  | VStr s => Some (TStr s)
  | VRef l =>
    match fuel with
    | O => None
    | S fuel' =>
      match h !! l with
      | Some (ODict items) =>
        TDict <$> mapM (λ kv, pair (fst kv) <$> read fuel' h (snd kv)) items
      | Some (OList elems) => TList <$> mapM (read fuel' h) elems
      | None => None
      end
    end
  end.

(** The store of the example: [{"b": "old", "c": 1}] at 0 and the job
    dictionary [{"a": <object 0>}] at 1. *)
Definition example_store : heap :=
  [ ODict [(cps "b", VStr (cps "old")); (cps "c", VInt 1%Z)];
    ODict [(cps "a", VRef 0%nat)] ].

Definition example_template : list (text * text) := [(cps "a.b", cps "X")].

(** A store built bottom-up: up to [l], a dictionary only holds references
    to objects allocated before it. *)
Definition refers_below (bound : nat) (v : value) : Prop :=
  match v with
  | VRef j => (j < bound)%nat
  | _ => True
  end.

Definition stratified (h : heap) (l : loc) : Prop :=
  ∀ (i : nat) items, (i ≤ l)%nat → h !! i = Some (ODict items) →
    Forall (λ kv, refers_below i (snd kv)) items.

(** ** Notions the statements use *)

Definition ident_text (s : text) : Prop := Forall (λ c, is_ident_char c = true) s.

Definition esc_char (c : N) : text :=
  if c =? 123 then cps "<[<" else if c =? 125 then cps ">]>" else [c].

(** The text with only the closing braces escaped. *)
Definition esc_close (t : text) : text :=
  flat_map (λ c, if c =? 125 then cps ">]>" else [c]) t.

(** What the loop returns: [(yaml_key, counter)] with the counter one past
    the suffix in use. *)
Definition probed (b : text) (U : gset text) (y : text) (c : N) (r : text * N) : Prop :=
  (r = (y, c) ∧ (y ∉ U))
  ∨ (c < snd r ∧ fst r = suffixed b (snd r - 1) ∧ y ∈ U ∧ (fst r ∉ U)
     ∧ ∀ j, c ≤ j → j < snd r - 1 → suffixed b j ∈ U).

Section Allocator.
Variable unicode_lower : text → N → text → text.
Local Abbreviation norm := (normalize_job_name_for_identifier unicode_lower).

(** Lines 81-87 on their own: the pair [(yaml_key, counter)] a name gets
    when [keys] are taken. *)
Definition allocate (keys : gset text) (job_name : text) : text * N :=
  probe (S (size keys)) keys (norm job_name) (norm job_name) 1.

(** The keys the loop gives to a list of names, in order. *)
Fixpoint key_trace (keys : gset text) (names : list text) : list text :=
  match names with
  | [] => []
  | n :: names' =>
    let k := fst (allocate keys n) in
    k :: key_trace ({[k]} ∪ keys) names'
  end.

(** The entries the loop appends to [duplicate_jobs]. *)
Fixpoint dup_trace (keys : gset text) (names : list text) : list dup_record :=
  match names with
  | [] => []
  | n :: names' =>
    let a := allocate keys n in
    (if 1 <? snd a
     then [{| dup_name := n; dup_identifier := fst a; dup_base_key := norm n |}]
     else [])
    ++ dup_trace ({[fst a]} ∪ keys) names'
  end.

(** The claim about one key: the base identifier when it is free, else the
    first of [base_1], [base_2], ... that is free. *)
Definition first_free (keys : gset text) (base key : text) : Prop :=
  ((base ∉ keys) ∧ key = base)
  ∨ (base ∈ keys ∧ ∃ k, 1 ≤ k ∧ key = suffixed base k ∧ (key ∉ keys)
     ∧ ∀ j, 1 ≤ j → j < k → suffixed base j ∈ keys).

(** Keys given in sequence, each against the keys given before it. *)
Inductive allocated : gset text → list text → list text → Prop :=
  | allocated_nil keys : allocated keys [] []
  | allocated_cons keys n names k ks :
      first_free keys (norm n) k →
      allocated ({[k]} ∪ keys) names ks →
      allocated keys (n :: names) (k :: ks).

(** Two jobs whose names normalize to the same base identifier. *)
Definition same_base (names : list text) : Prop :=
  ∃ (i j : nat) (a b : text),
    (i < j)%nat ∧ names !! i = Some a ∧ names !! j = Some b ∧ norm a = norm b.

(** A job is listed in [duplicate_jobs] exactly when its key is not its
    base identifier. *)
Definition suffixed_record (nk : text * text) : option dup_record :=
  if decide (snd nk = norm (fst nk)) then None
  else Some {| dup_name := fst nk; dup_identifier := snd nk; dup_base_key := norm (fst nk) |}.
End Allocator.

(** The merger raises nothing but [TypeError] and [AttributeError]. *)
Definition merge_error (e : exn) : Prop := e = TypeError ∨ e = AttributeError.

(** What comes out of the loop: a payload from [to_load_format] or an error
    of the merger; never a [ValueError]. *)
Definition propagated (e : exn) : Prop := (∃ p, e = External p) ∨ merge_error e.

(** Every key in use under ["jobs"] is in [user_keys]. *)
Definition keys_tracked (st : loop_state) : Prop :=
  ∀ k, k ∈ (export_jobs st).*1 → k ∈ user_keys st.

(** Values the walk may move into: objects older than the job dictionary or
    newer than its copy. *)
Definition safe (l n0 : nat) (v : value) : Prop :=
  match v with
  | VRef j => (j < l ∨ n0 < j)%nat
  | _ => True
  end.

Definition safe_items (l n0 : nat) (its : list (text * value)) : Prop :=
  Forall (λ kv, safe l n0 (snd kv)) its.

(** What holds of the store while the paths are applied: [l] is the job
    dictionary with its items [items0], [n0] its copy. *)
Definition sharing_inv (l n0 : nat) (items0 : list (text * value)) (h : heap) : Prop :=
  (n0 < length h)%nat
  ∧ h !! l = Some (ODict items0)
  ∧ ∀ (i : nat) its, (i < l ∨ n0 ≤ i)%nat → h !! i = Some (ODict its) → safe_items l n0 its.

(** The example of C5, evaluated: the result, and the job dictionary read
    again after the call. *)
Definition example_result : tree :=
  TDict [(cps "a", TDict [(cps "b", TStr (cps "X")); (cps "c", TInt 1%Z)])].

(** ** Notions of the further properties *)

(** The first [n] keys a repeated base identifier gets: [base], [base_1],
    ..., [base_(n-1)]. *)
Definition numbered_keys (base : text) (n : nat) : list text :=
  match n with
  | O => []
  | S n' => base :: ((λ k, suffixed base (N.of_nat k)) <$> seq 1 n')
  end.

(** Letters and digits of ASCII. *)
Definition is_alnum (c : N) : bool :=
  ((65 <=? c) && (c <=? 90)) || ((97 <=? c) && (c <=? 122))
  || ((48 <=? c) && (c <=? 57)).

(** What a path with parts [parts] below an absent first part builds: the
    value to put under the first part and the new dictionaries, the first of
    them at index [next]. *)
Fixpoint nest (next : nat) (parts : list text) (t : text) : value * list obj :=
  match parts with
  | [] => (VStr t, [])
  | part :: parts' =>
    let r := nest (S next) parts' t in
    (VRef next, ODict [(part, fst r)] :: snd r)
  end.

Definition build_one_jobs : list JobDefinition :=
  [job_with "Build" []; job_with "Build" []; job_with "Build 1" []].

(** * Substring lemmas *)

Example normalize_my_daily_job ul :
  normalize_job_name_for_identifier ul (cps "My Daily Job!!") = cps "my_daily_job".
Proof. reflexivity. Qed.

Lemma starts_with_spec p s : starts_with p s = true ↔ ∃ b, s = p ++ b.
Proof.
  revert s. induction p as [|a p IH]; intros s; simpl.
  - split; [intros _; by exists s | done].
  - destruct s as [|c s].
    + split; [done | intros [b Hb]; discriminate Hb].
    + rewrite andb_true_iff, N.eqb_eq, IH. split.
      * intros [-> [b ->]]. by exists b.
      * intros [b Hb]. injection Hb as -> ->. split; [done | by exists b].
Qed.

Lemma contains_occurs p s : contains p s = true ↔ occurs p s.
Proof.
  induction s as [|c s IH].
  - simpl. rewrite orb_false_r, starts_with_spec. split.
    + intros [b Hb]. by exists [], b.
    + intros [a [b Hab]]. destruct a; [by exists b | discriminate Hab].
  - cbn [contains]. rewrite orb_true_iff, IH, starts_with_spec. split.
    + intros [[b Hb] | [a [b Hab]]].
      * by exists [], b.
      * exists (c :: a), b. by rewrite Hab.
    + intros [a [b Hab]]. destruct a as [|c' a].
      * left. by exists b.
      * right. injection Hab as -> ->. by exists a, b.
Qed.

Lemma not_contains_occurs p s : contains p s = false ↔ ¬ occurs p s.
Proof. rewrite <- contains_occurs. by destruct (contains p s). Qed.

Lemma occurs_app_l p s t : occurs p s → occurs p (t ++ s).
Proof. intros [a [b ->]]. exists (t ++ a), b. by rewrite <- app_assoc. Qed.

Lemma occurs_app_r p s t : occurs p s → occurs p (s ++ t).
Proof. intros [a [b ->]]. exists a, (b ++ t). by rewrite <- !app_assoc. Qed.

Lemma occurs_rev p s : occurs p s → occurs (rev p) (rev s).
Proof.
  intros [a [b ->]]. exists (rev b), (rev a).
  by rewrite !rev_app_distr, <- app_assoc.
Qed.

(** * The normalizer *)

Lemma sub_non_ident_ident s : ident_text (sub_non_ident s).
Proof.
  induction s as [|c s IH]; constructor; [|exact IH].
  destruct (is_ident_char c) eqn:E; [exact E | reflexivity].
Qed.

Lemma sub_underscore_runs_ident s :
  ident_text s → ident_text (sub_underscore_runs s).
Proof.
  induction 1 as [|c s Hc Hs IH]; [constructor|].
  cbn [sub_underscore_runs].
  destruct (c =? underscore); [|by constructor].
  destruct s as [|d s]; [by repeat constructor|].
  destruct (d =? underscore); [exact IH | by constructor].
Qed.

Lemma sub_underscore_runs_head s : head (sub_underscore_runs s) = head s.
Proof.
  induction s as [|c s IH]; [done|]. cbn [sub_underscore_runs].
  destruct (c =? underscore) eqn:Ec; [|done].
  destruct s as [|d s]; [done|].
  destruct (d =? underscore) eqn:Ed; [|done].
  rewrite IH. simpl. apply N.eqb_eq in Ec, Ed. by rewrite Ec, Ed.
Qed.

Lemma contains_double_cons c s :
  contains (cps "__") (c :: s) =
  (c =? underscore) && match s with d :: _ => d =? underscore | [] => false end
  || contains (cps "__") s.
Proof.
  cbn [contains]. f_equal. change (cps "__") with [underscore; underscore].
  cbn [starts_with]. rewrite (N.eqb_sym underscore c).
  destruct s as [|d s]; [done|]. by rewrite andb_true_r, (N.eqb_sym underscore d).
Qed.

Lemma sub_underscore_runs_no_double s :
  contains (cps "__") (sub_underscore_runs s) = false.
Proof.
  induction s as [|c s IH]; [done|]. cbn [sub_underscore_runs].
  destruct (c =? underscore) eqn:Ec.
  - destruct s as [|d s]; [by rewrite contains_double_cons, Ec|].
    destruct (d =? underscore) eqn:Ed; [exact IH|].
    rewrite contains_double_cons, IH, orb_false_r, Ec.
    pose proof (sub_underscore_runs_head (d :: s)) as Hh.
    destruct (sub_underscore_runs (d :: s)) as [|e r]; [done|].
    injection Hh as ->. by rewrite Ed.
  - by rewrite contains_double_cons, Ec, IH.
Qed.

Lemma drop_while_suffix f s : ∃ pre, s = pre ++ drop_while f s.
Proof.
  induction s as [|c s [pre IH]]; [by exists []|]. simpl.
  destruct (f c); [|by exists []]. exists (c :: pre). simpl. by rewrite <- IH.
Qed.

Lemma drop_while_head f s c : head (drop_while f s) = Some c → f c = false.
Proof.
  induction s as [|d s IH]; [done|]. simpl. destruct (f d) eqn:E; [exact IH|].
  simpl. by intros [= <-].
Qed.

Lemma drop_while_id f s :
  (∀ c, head s = Some c → f c = false) → drop_while f s = s.
Proof. destruct s as [|c s]; [done|]. simpl. intros H. by rewrite (H c). Qed.

Lemma head_rev (s : text) : head (rev s) = last s.
Proof.
  induction s as [|c s IH] using rev_ind; [done|].
  by rewrite rev_unit, last_snoc.
Qed.

Lemma py_strip_decompose f s :
  ∃ pre post, s = pre ++ py_strip f s ++ post.
Proof.
  unfold py_strip.
  destruct (drop_while_suffix f s) as [pre Hpre].
  destruct (drop_while_suffix f (rev (drop_while f s))) as [post Hpost].
  exists pre, (rev post).
  rewrite <- rev_app_distr, <- Hpost, rev_involutive. exact Hpre.
Qed.

Lemma py_strip_last f s c : last (py_strip f s) = Some c → f c = false.
Proof. unfold py_strip. rewrite <- head_rev, rev_involutive. apply drop_while_head. Qed.

Lemma py_strip_head f s c : head (py_strip f s) = Some c → f c = false.
Proof.
  unfold py_strip.
  destruct (drop_while_suffix f (rev (drop_while f s))) as [post Hpost].
  set (t := drop_while f (rev (drop_while f s))) in *.
  intros Hh. apply (drop_while_head f s).
  apply (f_equal (@rev N)) in Hpost. rewrite rev_involutive, rev_app_distr in Hpost.
  rewrite Hpost. destruct (rev t); [done | exact Hh].
Qed.

Lemma py_strip_id f s :
  (∀ c, head s = Some c → f c = false) →
  (∀ c, last s = Some c → f c = false) → py_strip f s = s.
Proof.
  intros Hh Hl. unfold py_strip. rewrite (drop_while_id f s Hh).
  rewrite drop_while_id; [apply rev_involutive|].
  intros c. rewrite head_rev. apply Hl.
Qed.

Lemma ident_text_app s t : ident_text (s ++ t) → ident_text s ∧ ident_text t.
Proof. apply Forall_app. Qed.

Section NormalizerFacts.
Variable unicode_lower : text → N → text → text.
Local Abbreviation normalize := (normalize_job_name_for_identifier unicode_lower).

Lemma normalize_ident x : ident_text (normalize x).
Proof.
  unfold normalize_job_name_for_identifier.
  set (t := sub_underscore_runs _).
  assert (ident_text t) as Ht
    by apply sub_underscore_runs_ident, sub_non_ident_ident.
  destruct (py_strip_decompose is_underscore t) as [pre [post Hd]].
  rewrite Hd in Ht. apply ident_text_app in Ht as [_ Ht].
  by apply ident_text_app in Ht as [Ht _].
Qed.

Lemma normalize_no_double x : contains (cps "__") (normalize x) = false.
Proof.
  unfold normalize_job_name_for_identifier.
  set (t := sub_underscore_runs _).
  assert (contains (cps "__") t = false) as Ht
    by apply sub_underscore_runs_no_double.
  apply not_contains_occurs. apply not_contains_occurs in Ht.
  intros Ho. apply Ht.
  destruct (py_strip_decompose is_underscore t) as [pre [post Hd]].
  rewrite Hd. by apply occurs_app_l, occurs_app_r.
Qed.

Lemma normalize_ends x :
  head (normalize x) ≠ Some underscore ∧ last (normalize x) ≠ Some underscore.
Proof.
  unfold normalize_job_name_for_identifier. split; intros H.
  - by apply py_strip_head in H.
  - by apply py_strip_last in H.
Qed.

Lemma lower_from_ident before s : ident_text s → lower_from unicode_lower before s = s.
Proof.
  intros Hs. revert before. induction Hs as [|c s Hc Hs IH]; intros before; [done|].
  cbn [lower_from]. rewrite IH.
  assert ((c <? 128) = true ∧ ascii_lower c = c) as [-> ->]; [|done].
  unfold is_ident_char, ascii_lower, underscore in *.
  repeat (rewrite ?orb_true_iff, ?andb_true_iff, ?N.leb_le, ?N.eqb_eq in Hc).
  split; [by apply N.ltb_lt; lia|].
  destruct (65 <=? c) eqn:E1, (c <=? 90) eqn:E2; try done.
  apply N.leb_le in E1, E2. lia.
Qed.

Lemma replace_space_ident s :
  ident_text s → py_replace (cps " ") (cps "_") s = s.
Proof.
  change (py_replace (cps " ") (cps "_") s) with (replace_scan [32] [95] O s).
  induction 1 as [|c s Hc Hs IH]; [done|].
  cbn [replace_scan starts_with]. rewrite IH.
  destruct (32 =? c) eqn:E; [|done].
  apply N.eqb_eq in E. subst c. discriminate Hc.
Qed.

Lemma sub_non_ident_id s : ident_text s → sub_non_ident s = s.
Proof.
  induction 1 as [|c s Hc Hs IH]; [done|].
  unfold sub_non_ident in *. cbn [fmap list_fmap] in *. by rewrite Hc, IH.
Qed.

Lemma sub_underscore_runs_id s :
  contains (cps "__") s = false → sub_underscore_runs s = s.
Proof.
  induction s as [|c s IH]; [done|].
  rewrite contains_double_cons. intros H.
  apply orb_false_iff in H as [H1 H2]. cbn [sub_underscore_runs].
  rewrite (IH H2). destruct (c =? underscore); [|done].
  destruct s as [|d s]; [done|]. simpl in H1. by rewrite H1.
Qed.

(** A text that already has the shape of an identifier is left alone. *)
Lemma normalize_fixes s :
  ident_text s → contains (cps "__") s = false →
  head s ≠ Some underscore → last s ≠ Some underscore →
  normalize s = s.
Proof.
  intros Hi Hd Hh Hl. unfold normalize_job_name_for_identifier, py_lower.
  rewrite (lower_from_ident _ _ Hi), (replace_space_ident _ Hi),
    (sub_non_ident_id _ Hi), (sub_underscore_runs_id _ Hd).
  apply py_strip_id; intros c Hc; unfold is_underscore.
  - apply N.eqb_neq. intros ->. by apply Hh.
  - apply N.eqb_neq. intros ->. by apply Hl.
Qed.
End NormalizerFacts.

(** * [str.replace] *)

Lemma replace_scan_skip old new a rest :
  replace_scan old new (length a) (a ++ rest) = replace_scan old new O rest.
Proof. induction a as [|c a IH]; [by destruct rest | exact IH]. Qed.

Lemma starts_with_app p rest : starts_with p (p ++ rest) = true.
Proof. apply starts_with_spec. by exists rest. Qed.

Lemma replace_scan_match old new rest :
  old ≠ [] →
  replace_scan old new O (old ++ rest) = new ++ replace_scan old new O rest.
Proof.
  destruct old as [|o old]; [done|]. intros _.
  change ((o :: old) ++ rest) with (o :: (old ++ rest)).
  cbn [replace_scan].
  change (o :: (old ++ rest)) with ((o :: old) ++ rest).
  rewrite starts_with_app. cbn [length Nat.pred].
  by rewrite replace_scan_skip.
Qed.

Lemma replace_scan_nomatch old new c s :
  starts_with old (c :: s) = false →
  replace_scan old new O (c :: s) = c :: replace_scan old new O s.
Proof. intros H. cbn [replace_scan]. by rewrite H. Qed.

Lemma replace_scan_char a new s :
  replace_scan [a] new O s = flat_map (λ c, if c =? a then new else [c]) s.
Proof.
  induction s as [|c s IH]; [done|].
  cbn [replace_scan starts_with flat_map length Nat.pred].
  rewrite IH, andb_true_r, (N.eqb_sym a c). by destruct (c =? a).
Qed.

(** What the scan leaves in front was in front of its input: a literal
    prefix of the result whose code points are foreign to [new] is a prefix
    of the input. *)
Lemma starts_with_replace_scan old new q s :
  new ≠ [] → (∀ c, c ∈ q → c ∉ new) →
  starts_with q (replace_scan old new O s) = true → starts_with q s = true.
Proof.
  intros Hnew. revert s. induction q as [|a q IH]; intros s Hq; [done|].
  destruct s as [|c s]; [done|]. cbn [replace_scan].
  destruct (starts_with old (c :: s)) eqn:E.
  - destruct new as [|n new]; [done|]. simpl.
    intros H. apply andb_true_iff in H as [H _]. apply N.eqb_eq in H. subst n.
    exfalso. apply (Hq a); constructor.
  - simpl. intros H. apply andb_true_iff in H as [-> H]. simpl.
    apply IH; [|done]. intros d Hd. apply Hq. by constructor.
Qed.

Lemma occurs_cons q c s :
  occurs q (c :: s) ↔ starts_with q (c :: s) = true ∨ occurs q s.
Proof. rewrite <- !contains_occurs. cbn [contains]. apply orb_true_iff. Qed.

(** An occurrence of [q] in [a ++ b] lies in [b] or starts inside [a]. *)
Lemma occurs_app_foreign q a b :
  q ≠ [] → (∀ c, c ∈ q → c ∉ a) → occurs q (a ++ b) → occurs q b.
Proof.
  intros Hq Hf. induction a as [|c a IH]; [done|].
  change ((c :: a) ++ b) with (c :: (a ++ b)). rewrite occurs_cons.
  intros [H | H].
  - destruct q as [|x q]; [done|]. simpl in H.
    apply andb_true_iff in H as [H _]. apply N.eqb_eq in H. subst x.
    exfalso. apply (Hf c); constructor.
  - apply IH; [|done]. intros d Hd Hin. apply (Hf d Hd). by constructor.
Qed.

Lemma replace_scan_length_ind (P : text → Prop) :
  (∀ s, (∀ t, (length t < length s)%nat → P t) → P s) → ∀ s, P s.
Proof.
  intros H s. remember (length s) as n eqn:Hn. revert s Hn.
  induction n as [n IH] using lt_wf_ind. intros s ->.
  apply H. intros t Ht. by apply (IH (length t)).
Qed.

(** Replacing [old] by a text foreign to [q] creates no occurrence of
    [q]. *)
Lemma occurs_replace_scan old new q s :
  old ≠ [] → new ≠ [] → q ≠ [] → (∀ c, c ∈ q → c ∉ new) →
  occurs q (replace_scan old new O s) → occurs q s.
Proof.
  intros Hold Hnew Hq Hf. induction s as [s IH] using replace_scan_length_ind.
  destruct s as [|c s]; [done|].
  destruct (starts_with old (c :: s)) eqn:E.
  - apply starts_with_spec in E as [rest E]. rewrite E.
    rewrite replace_scan_match by done. intros H.
    apply occurs_app_foreign in H; [|done..].
    apply occurs_app_l, IH; [|done].
    rewrite E, length_app. destruct old; [done | simpl; lia].
  - rewrite replace_scan_nomatch by done. rewrite !occurs_cons.
    intros [H | H].
    + left. destruct q as [|x q]; [done|]. simpl in H |- *.
      apply andb_true_iff in H as [-> H]. simpl.
      apply (starts_with_replace_scan old new q s Hnew); [|done].
      intros d Hd. apply Hf. by constructor.
    + right. apply IH; [simpl; lia | done].
Qed.

(** After [s.replace(old, new)] no occurrence of [old] is left, when [new]
    is foreign to [old]. *)
Lemma replace_scan_removes old new s :
  old ≠ [] → new ≠ [] → (∀ c, c ∈ old → c ∉ new) →
  ¬ occurs old (replace_scan old new O s).
Proof.
  intros Hold Hnew Hf. induction s as [s IH] using replace_scan_length_ind.
  destruct s as [|c s].
  - simpl. intros [a [b H]]. destruct a, old; done.
  - destruct (starts_with old (c :: s)) eqn:E.
    + apply starts_with_spec in E as [rest E]. rewrite E.
      rewrite replace_scan_match by done. intros H.
      apply occurs_app_foreign in H; [|done..].
      revert H. apply IH. rewrite E, length_app. destruct old; [done | simpl; lia].
    + rewrite replace_scan_nomatch by done. rewrite occurs_cons.
      intros [H | H].
      * destruct old as [|x old]; [done|]. simpl in H, E.
        apply andb_true_iff in H as [Hx H]. rewrite Hx in E. simpl in E.
        apply (starts_with_replace_scan (x :: old) new old s Hnew) in H.
        -- congruence.
        -- intros d Hd. apply Hf. by constructor.
      * revert H. apply IH. simpl; lia.
Qed.

(** * Escaping the curly braces *)

Lemma escape_flat_map t : escape_curly_braces t = flat_map esc_char t.
Proof.
  unfold escape_curly_braces.
  change (py_replace (cps "{") (cps "<[<") t) with (replace_scan [123] (cps "<[<") O t).
  change (py_replace (cps "}") (cps ">]>")) with (replace_scan [125] (cps ">]>") O).
  rewrite !replace_scan_char.
  induction t as [|c t IH]; [done|]. cbn [flat_map].
  rewrite flat_map_app, IH. f_equal. unfold esc_char.
  destruct (c =? 123) eqn:E1; [done|]. simpl. by rewrite app_nil_r.
Qed.

Lemma contains_char a s : contains [a] s = true ↔ a ∈ s.
Proof.
  induction s as [|c s IH]; [by rewrite elem_of_nil|].
  cbn [contains starts_with].
  rewrite orb_true_iff, IH, andb_true_r, N.eqb_eq, elem_of_cons.
  done.
Qed.

Lemma esc_char_no_brace c d : d ∈ esc_char c → d ≠ 123 ∧ d ≠ 125.
Proof.
  unfold esc_char.
  destruct (N.eqb_spec c 123) as [|H1]; [|destruct (N.eqb_spec c 125) as [|H2]];
    change (cps "<[<") with [60; 91; 60]; change (cps ">]>") with [62; 93; 62];
    rewrite ?elem_of_cons, elem_of_nil; intros H;
    repeat destruct H as [H|H]; subst; done.
Qed.

Lemma escape_no_brace t d : d ∈ escape_curly_braces t → d ≠ 123 ∧ d ≠ 125.
Proof.
  rewrite escape_flat_map, list_elem_of_In, in_flat_map.
  intros [c [_ H]]. apply (esc_char_no_brace c). by apply list_elem_of_In.
Qed.

Ltac brace_cases c :=
  destruct (N.eqb_spec c 123) as [->|?];
  [|destruct (N.eqb_spec c 125) as [->|?]].

Lemma escape_keeps_open_free c t :
  c ≠ 123 → c ≠ 125 →
  starts_with (cps "<[<") (c :: t) = false →
  starts_with (cps "<[{") (c :: t) = false →
  starts_with (cps "<[<") (c :: flat_map esc_char t) = false.
Proof.
  intros Hc1 Hc2.
  change (cps "<[<") with [60; 91; 60]. change (cps "<[{") with [60; 91; 123].
  cbn [starts_with]. destruct (60 =? c); [|done]. rewrite !andb_true_l.
  destruct t as [|d t]; [done|]. cbn [flat_map]. unfold esc_char at 1.
  brace_cases d; [done | done |]. cbn [app].
  destruct (91 =? d); [|done]. rewrite !andb_true_l.
  destruct t as [|e t]; [done|]. cbn [flat_map]. unfold esc_char at 1.
  rewrite !andb_true_r.
  brace_cases e; [done | done |]. cbn [app]. by intros ->.
Qed.

Lemma unescape_open t :
  contains (cps "<[<") t = false → contains (cps "<[{") t = false →
  replace_scan (cps "<[<") (cps "{") O (flat_map esc_char t) = esc_close t.
Proof.
  induction t as [|c t IH]; [done|]. cbn [contains].
  intros [H1 H1']%orb_false_iff [H2 H2']%orb_false_iff.
  specialize (IH H1' H2'). cbn [flat_map]. unfold esc_char at 1, esc_close.
  cbn [flat_map]. fold (esc_close t).
  brace_cases c.
  - rewrite replace_scan_match by done. by rewrite IH.
  - change (cps ">]>" ++ flat_map esc_char t)
      with (62 :: 93 :: 62 :: flat_map esc_char t).
    rewrite !replace_scan_nomatch by done. by rewrite IH.
  - destruct (N.eqb_spec c 125) as [|_]; [done|]. cbn [app].
    rewrite replace_scan_nomatch by by apply escape_keeps_open_free.
    by rewrite IH.
Qed.

Lemma esc_close_keeps_close_free c t :
  c ≠ 125 →
  starts_with (cps ">]>") (c :: t) = false →
  starts_with (cps ">]}") (c :: t) = false →
  starts_with (cps ">]>") (c :: esc_close t) = false.
Proof.
  intros Hc.
  change (cps ">]>") with [62; 93; 62]. change (cps ">]}") with [62; 93; 125].
  cbn [starts_with]. destruct (62 =? c); [|done]. rewrite !andb_true_l.
  destruct t as [|d t]; [done|]. unfold esc_close. cbn [flat_map].
  destruct (N.eqb_spec d 125) as [->|?]; [done|]. cbn [app].
  destruct (93 =? d); [|done]. rewrite !andb_true_l.
  destruct t as [|e t]; [done|]. cbn [flat_map]. rewrite !andb_true_r.
  destruct (N.eqb_spec e 125) as [->|?]; [done|]. cbn [app]. by intros ->.
Qed.

Lemma unescape_close t :
  contains (cps ">]>") t = false → contains (cps ">]}") t = false →
  replace_scan (cps ">]>") (cps "}") O (esc_close t) = t.
Proof.
  induction t as [|c t IH]; [done|]. cbn [contains].
  intros [H1 H1']%orb_false_iff [H2 H2']%orb_false_iff.
  specialize (IH H1' H2'). unfold esc_close. cbn [flat_map]. fold (esc_close t).
  destruct (N.eqb_spec c 125) as [->|?].
  - rewrite replace_scan_match by done. by rewrite IH.
  - cbn [app]. rewrite replace_scan_nomatch by by apply esc_close_keeps_close_free.
    by rewrite IH.
Qed.

Lemma unescape_unfold y :
  unescape_curly_braces y =
  replace_scan (cps ">]>") (cps "}") O (replace_scan (cps "<[<") (cps "{") O y).
Proof. reflexivity. Qed.

(** The unescaped text has no sentinel left. *)
Lemma unescape_no_sentinel y :
  contains (cps "<[<") (unescape_curly_braces y) = false
  ∧ contains (cps ">]>") (unescape_curly_braces y) = false.
Proof.
  rewrite unescape_unfold, !not_contains_occurs. split.
  - intros H. apply occurs_replace_scan in H; [|done..|].
    + revert H. apply replace_scan_removes; [done..|].
      intros c Hc Hn. change (cps "{") with [123] in Hn.
      change (cps "<[<") with [60; 91; 60] in Hc.
      apply list_elem_of_singleton in Hn. subst c.
      rewrite !elem_of_cons, elem_of_nil in Hc. by repeat destruct Hc as [Hc|Hc].
    + intros c Hc Hn. change (cps "}") with [125] in Hn.
      change (cps "<[<") with [60; 91; 60] in Hc.
      apply list_elem_of_singleton in Hn. subst c.
      rewrite !elem_of_cons, elem_of_nil in Hc. by repeat destruct Hc as [Hc|Hc].
  - apply replace_scan_removes; [done..|].
    intros c Hc Hn. change (cps "}") with [125] in Hn.
    change (cps ">]>") with [62; 93; 62] in Hc.
    apply list_elem_of_singleton in Hn. subst c.
    rewrite !elem_of_cons, elem_of_nil in Hc. by repeat destruct Hc as [Hc|Hc].
Qed.

(** A text without the first code point of [old] has no match. *)
Lemma replace_scan_foreign o old new p rest :
  o ∉ p →
  replace_scan (o :: old) new O (p ++ rest) = p ++ replace_scan (o :: old) new O rest.
Proof.
  induction p as [|c p IH]; [done|]. intros Hn.
  apply not_elem_of_cons in Hn as [Hc Hp].
  change ((c :: p) ++ rest) with (c :: (p ++ rest)).
  rewrite replace_scan_nomatch, IH; [done..|].
  simpl. by destruct (N.eqb_spec o c).
Qed.

Lemma replace_scan_foreign_all o old new p :
  o ∉ p → replace_scan (o :: old) new O p = p.
Proof.
  intros H. rewrite <- (app_nil_r p) at 1.
  rewrite replace_scan_foreign by done. simpl. apply app_nil_r.
Qed.

Ltac foreign_literal :=
  repeat (rewrite not_elem_of_cons; split; [done|]); apply not_elem_of_nil.

(** A sentinel between two texts free of angle brackets comes out as the
    brace. *)
Lemma unescape_rewrites p q :
  60 ∉ p → 62 ∉ p → 60 ∉ q → 62 ∉ q →
  unescape_curly_braces (p ++ cps "<[<" ++ q) = p ++ cps "{" ++ q
  ∧ unescape_curly_braces (p ++ cps ">]>" ++ q) = p ++ cps "}" ++ q.
Proof.
  intros Hp1 Hp2 Hq1 Hq2. rewrite !unescape_unfold. split.
  - change (cps "<[<") with [60; 91; 60] at 1.
    rewrite replace_scan_foreign by done.
    change ([60; 91; 60] ++ q) with (cps "<[<" ++ q).
    rewrite replace_scan_match by done.
    change (cps "<[<") with [60; 91; 60].
    rewrite (replace_scan_foreign_all 60) by done.
    apply (replace_scan_foreign_all 62).
    rewrite !not_elem_of_app. split; [done|]. split; [|done].
    change (cps "{") with [123]. foreign_literal.
  - change (cps "<[<") with [60; 91; 60].
    rewrite (replace_scan_foreign_all 60).
    + change (cps ">]>") with [62; 93; 62] at 1.
      rewrite replace_scan_foreign by done.
      change ([62; 93; 62] ++ q) with (cps ">]>" ++ q).
      rewrite replace_scan_match by done.
      change (cps ">]>") with [62; 93; 62].
      by rewrite (replace_scan_foreign_all 62).
    + rewrite !not_elem_of_app. split; [done|]. split; [|done].
      change (cps ">]>") with [62; 93; 62]. foreign_literal.
Qed.

(** * The key allocator *)

Lemma cps_inj s1 s2 : cps s1 = cps s2 → s1 = s2.
Proof.
  unfold cps. intros H.
  assert (∀ l : list ascii, List.map ascii_of_N (N_of_ascii <$> l) = l) as Hback.
  { induction l as [|a l IH]; [done|]. rewrite fmap_cons. cbn [List.map].
    by rewrite ascii_N_embedding, IH. }
  apply (f_equal (List.map ascii_of_N)) in H. rewrite !Hback in H.
  apply (f_equal string_of_list_ascii) in H.
  by rewrite !string_of_list_ascii_of_string in H.
Qed.

Lemma decimal_inj n m : decimal n = decimal m → n = m.
Proof.
  unfold decimal. intros H%cps_inj.
  apply (f_equal NilEmpty.uint_of_string) in H. rewrite !NilEmpty.usu in H.
  injection H as H. apply (f_equal N.of_uint) in H.
  by rewrite !DecimalN.Unsigned.of_to in H.
Qed.

Lemma suffixed_inj b n m : suffixed b n = suffixed b m → n = m.
Proof.
  unfold suffixed. intros H. apply app_inv_head, app_inv_head in H.
  by apply decimal_inj.
Qed.

Lemma suffixed_neq_base b n : suffixed b n ≠ b.
Proof.
  unfold suffixed. intros H. apply (f_equal length) in H.
  rewrite !length_app in H. simpl in H. lia.
Qed.

Lemma size_remove (U : gset text) (y : text) : y ∈ U → size U = S (size (U ∖ {[y]})).
Proof.
  intros Hy.
  assert (U = {[y]} ∪ U ∖ {[y]}) as HU.
  { apply set_eq. intros x.
    rewrite elem_of_union, elem_of_difference, elem_of_singleton. split.
    - intros Hx. destruct (decide (x = y)); [by left | by right].
    - by intros [-> | [Hx _]]. }
  rewrite HU at 1. rewrite size_union.
  - by rewrite size_singleton.
  - apply elem_of_disjoint. intros x Hx1%elem_of_singleton Hx2%elem_of_difference.
    destruct Hx2 as [_ Hx2]. apply Hx2. by apply elem_of_singleton.
Qed.

(** The loop only looks at the current key and the later candidates. *)
Lemma probe_ext (fuel : nat) (b : text) (U U' : gset text) (y : text) (c : N) :
  (y ∈ U ↔ y ∈ U') →
  (∀ j, c ≤ j → suffixed b j ∈ U ↔ suffixed b j ∈ U') →
  probe fuel U b y c = probe fuel U' b y c.
Proof.
  revert y c. induction fuel as [|fuel IH]; intros y c Hy Hj; [done|].
  cbn [probe]. destruct (decide (y ∈ U)) as [Hin|Hin].
  - rewrite decide_True by by apply Hy.
    apply IH; [apply Hj; lia|]. intros j Hle. apply Hj. lia.
  - rewrite decide_False by by rewrite <- Hy.
    done.
Qed.

Lemma probe_drop (fuel : nat) (b : text) (U : gset text) (y : text) (c : N) :
  (∀ j, c ≤ j → suffixed b j ≠ y) →
  probe fuel U b (suffixed b c) (c + 1)
  = probe fuel (U ∖ {[y]}) b (suffixed b c) (c + 1).
Proof.
  intros Hne. apply probe_ext.
  - rewrite elem_of_difference, elem_of_singleton.
    specialize (Hne c). split; [|tauto]. intros H. split; [done|]. apply Hne. lia.
  - intros j Hj. rewrite elem_of_difference, elem_of_singleton.
    specialize (Hne j). split; [|tauto]. intros H. split; [done|]. apply Hne. lia.
Qed.

Lemma probe_spec (fuel : nat) (b : text) (U : gset text) (y : text) (c : N) :
  (size U < fuel)%nat → (∀ j, c ≤ j → suffixed b j ≠ y) →
  probed b U y c (probe fuel U b y c).
Proof.
  revert U y c. induction fuel as [|fuel IH]; intros U y c Hsz Hne; [lia|].
  cbn [probe]. destruct (decide (y ∈ U)) as [Hin|Hin]; [|by left].
  right. rewrite (probe_drop fuel b U y c Hne).
  assert (∀ j, c + 1 ≤ j → suffixed b j ≠ suffixed b c) as Hne'.
  { intros j Hj Heq%suffixed_inj. lia. }
  pose proof (size_remove U y Hin) as Hsize.
  destruct (IH (U ∖ {[y]}) (suffixed b c) (c + 1) ltac:(lia) Hne')
    as [[Hr Hout] | (Hlt & Hk & Hc & Hout & Hall)].
  - rewrite Hr. cbn [fst snd]. replace (c + 1 - 1) with c by lia.
    split; [lia|]. split; [done|]. split; [done|]. split.
    + intros H. apply Hout. rewrite elem_of_difference, elem_of_singleton.
      split; [done|]. apply Hne. lia.
    + intros j Hj1 Hj2. lia.
  - set (r := probe fuel (U ∖ {[y]}) b (suffixed b c) (c + 1)) in *.
    split; [lia|]. split; [done|]. split; [done|]. split.
    + intros H. apply Hout. rewrite elem_of_difference, elem_of_singleton.
      split; [done|]. rewrite Hk. apply Hne. lia.
    + intros j Hj1 Hj2. destruct (decide (j = c)) as [->|Hjc].
      * by apply elem_of_difference in Hc as [Hc _].
      * assert (suffixed b j ∈ U ∖ {[y]}) as Hj by (apply Hall; lia).
        by apply elem_of_difference in Hj as [Hj _].
Qed.

(** More fuel than the size of [user_keys] changes nothing: the loop always
    leaves through its condition. *)
Lemma probe_fuel (fuel : nat) (b : text) (U : gset text) (y : text) (c : N) :
  (size U < fuel)%nat → (∀ j, c ≤ j → suffixed b j ≠ y) →
  probe fuel U b y c = probe (S (size U)) U b y c.
Proof.
  revert U y c. induction fuel as [|fuel IH]; intros U y c Hsz Hne; [lia|].
  cbn [probe]. destruct (decide (y ∈ U)) as [Hin|Hin]; [|done].
  assert (∀ j, c + 1 ≤ j → suffixed b j ≠ suffixed b c) as Hne'.
  { intros j Hj Heq%suffixed_inj. lia. }
  pose proof (size_remove U y Hin) as Hsize.
  rewrite !(probe_drop _ b U y c Hne).
  rewrite (IH (U ∖ {[y]})) by (done || lia). by rewrite Hsize.
Qed.

Lemma dict_set_fresh k v items :
  k ∉ items.*1 → dict_set k v items = items ++ [(k, v)].
Proof.
  induction items as [|[k' v'] items IH]; [done|].
  rewrite fmap_cons, not_elem_of_cons. intros [Hne Hin]. cbn [dict_set fst] in *.
  rewrite decide_False by done. by rewrite IH.
Qed.

Section Allocation.
Variable unicode_lower : text → N → text → text.
Local Abbreviation norm := (normalize_job_name_for_identifier unicode_lower).

Lemma allocate_spec keys n :
  probed (norm n) keys (norm n) 1 (allocate unicode_lower keys n).
Proof.
  apply probe_spec; [lia|]. intros j _. apply suffixed_neq_base.
Qed.

(** With any fuel above the size of [keys] the loop gives the same pair: the
    bound in [loop_body] is never what stops it. *)
Lemma allocate_fuel keys n (fuel : nat) :
  (size keys < fuel)%nat →
  probe fuel keys (norm n) (norm n) 1 = allocate unicode_lower keys n.
Proof.
  intros Hf. apply probe_fuel; [done|]. intros j _. apply suffixed_neq_base.
Qed.

Lemma allocate_first_free keys n : first_free keys (norm n) (fst (allocate unicode_lower keys n)).
Proof.
  destruct (allocate_spec keys n) as [[-> Hout] | (Hlt & Hk & Hin & Hout & Hall)].
  - by left.
  - right. split; [done|]. exists (snd (allocate unicode_lower keys n) - 1).
    split; [lia|]. split; [done|]. split; [done|]. intros j ??. by apply Hall.
Qed.

Lemma allocate_fresh keys n : fst (allocate unicode_lower keys n) ∉ keys.
Proof. destruct (allocate_spec keys n) as [[-> ?] | (?&?&?&?&?)]; done. Qed.

(** The counter is above 1 exactly when the base identifier was taken. *)
Lemma allocate_counter keys n : (1 <? snd (allocate unicode_lower keys n)) = true ↔ norm n ∈ keys.
Proof.
  rewrite N.ltb_lt.
  destruct (allocate_spec keys n) as [[-> ?] | (?&?&?&?&?)]; simpl; [|done].
  split; [lia | done].
Qed.

Lemma allocate_base keys n : norm n ∉ keys → fst (allocate unicode_lower keys n) = norm n.
Proof.
  intros Hn.
  destruct (allocate_spec keys n) as [[-> ?] | (?&?&?&?&?)]; done.
Qed.

Lemma key_trace_allocated keys names : allocated unicode_lower keys names (key_trace unicode_lower keys names).
Proof.
  revert keys. induction names as [|n names IH]; intros keys; constructor.
  - apply allocate_first_free.
  - apply IH.
Qed.

Lemma key_trace_fresh keys names k : k ∈ key_trace unicode_lower keys names → k ∉ keys.
Proof.
  revert keys. induction names as [|n names IH]; intros keys; [by intros ?%elem_of_nil|].
  cbn [key_trace]. rewrite elem_of_cons. intros [-> | H].
  - apply allocate_fresh.
  - apply IH in H. intros Hk. apply H. apply elem_of_union. by right.
Qed.

Lemma key_trace_NoDup keys names : NoDup (key_trace unicode_lower keys names).
Proof.
  revert keys. induction names as [|n names IH]; intros keys; [constructor|].
  cbn [key_trace]. constructor; [|apply IH].
  intros H%key_trace_fresh. apply H. apply elem_of_union. left.
  by apply elem_of_singleton.
Qed.

Lemma key_trace_take keys names n :
  take n (key_trace unicode_lower keys names) = key_trace unicode_lower keys (take n names).
Proof.
  revert keys n. induction names as [|m names IH]; intros keys [|n]; try done.
  cbn [key_trace take]. by rewrite IH.
Qed.

Lemma key_trace_length keys names : length (key_trace unicode_lower keys names) = length names.
Proof.
  revert keys. induction names as [|m names IH]; intros keys; [done|].
  cbn [key_trace length]. by rewrite IH.
Qed.

Lemma same_base_cons n names :
  same_base unicode_lower (n :: names) ↔ (∃ m, m ∈ names ∧ norm m = norm n) ∨ same_base unicode_lower names.
Proof.
  split.
  - intros (i & j & a & b & Hlt & Hi & Hj & Hab).
    destruct j as [|j]; [lia|]. destruct i as [|i].
    + left. injection Hi as ->. exists b. split; [|done].
      apply (list_elem_of_lookup_2 _ j). exact Hj.
    + right. exists i, j, a, b. split; [lia|]. done.
  - intros [(m & Hm & Hmn) | (i & j & a & b & Hlt & Hi & Hj & Hab)].
    + apply list_elem_of_lookup_1 in Hm as [j Hj].
      exists O, (S j), n, m. split; [lia|]. done.
    + exists (S i), (S j), a, b. split; [lia|]. done.
Qed.

(** Some job gets a suffix exactly when a base identifier is taken at the
    start or two names share one. *)
Lemma dup_trace_nonempty keys names :
  dup_trace unicode_lower keys names ≠ [] ↔
  (∃ m, m ∈ names ∧ norm m ∈ keys) ∨ same_base unicode_lower names.
Proof.
  revert keys. induction names as [|n names IH]; intros keys.
  - split; [done|]. intros [(m & Hm & _) | (i & j & a & b & _ & Hi & _)].
    + by apply elem_of_nil in Hm.
    + done.
  - cbn [dup_trace]. rewrite same_base_cons.
    destruct (decide (norm n ∈ keys)) as [Hin|Hout].
    + pose proof (proj2 (allocate_counter keys n) Hin) as ->.
      split; [|done]. intros _. left. exists n. split; [constructor | done].
    + assert ((1 <? snd (allocate unicode_lower keys n)) = false) as ->.
      { apply not_true_is_false. by rewrite allocate_counter. }
      rewrite (allocate_base keys n Hout). cbn [app]. rewrite IH. split.
      * intros [(m & Hm & Hk) | Hs]; [|by right; right].
        apply elem_of_union in Hk as [Hk%elem_of_singleton | Hk].
        -- right. left. by exists m.
        -- left. exists m. split; [by constructor | done].
      * intros [(m & Hm & Hk) | [(m & Hm & Hk) | Hs]]; [| |by right].
        -- apply elem_of_cons in Hm as [-> | Hm]; [done|].
           left. exists m. split; [done|]. apply elem_of_union. by right.
        -- left. exists m. split; [done|]. apply elem_of_union. left.
           by apply elem_of_singleton.
Qed.
End Allocation.

(** * Computations on the store *)

Lemma bind_inr {A B} (m : M A) (k : A → M B) h b h' :
  bind m k h = (inr b, h') → ∃ a h1, m h = (inr a, h1) ∧ k a h1 = (inr b, h').
Proof.
  unfold bind. destruct (m h) as [[e|a] h1]; [done|]. intros H. by exists a, h1.
Qed.

Lemma bind_inl {A B} (m : M A) (k : A → M B) h e h' :
  bind m k h = (inl e, h') →
  m h = (inl e, h') ∨ ∃ a h1, m h = (inr a, h1) ∧ k a h1 = (inl e, h').
Proof.
  unfold bind. destruct (m h) as [[e1|a] h1]; intros H.
  - left. by injection H as -> ->.
  - right. by exists a, h1.
Qed.

Lemma propagated_not_value e msg : propagated e → e ≠ ValueError msg.
Proof. intros [[p ->] | [-> | ->]]; discriminate. Qed.

Lemma dict_items_raises d h e h' : dict_items d h = (inl e, h') → merge_error e.
Proof.
  unfold dict_items. destruct d as [| | | |l]; try (intros [= <- _]; by left).
  destruct (h !! l) as [[items|elems]|]; intros [= <- _]; by left.
Qed.

Lemma descend_raises parts d h e h' : descend parts d h = (inl e, h') → merge_error e.
Proof.
  revert d h. induction parts as [|part parts IH]; intros d h; [done|].
  cbn [descend]. intros [H | (di & h1 & Hdi & H)]%bind_inl.
  - by apply dict_items_raises in H.
  - destruct (dict_get part di.2) as [v|]; [by apply IH in H|].
    apply bind_inl in H as [H | (l & h2 & Hl & H)]; [done|].
    apply bind_inl in H as [H | (u & h3 & Hu & H)]; [done|]. by apply IH in H.
Qed.

Lemma set_nested_value_raises d path v h e h' :
  set_nested_value d path v h = (inl e, h') → merge_error e.
Proof.
  unfold set_nested_value. intros [H | (d' & h1 & Hd & H)]%bind_inl.
  - by apply descend_raises in H.
  - apply bind_inl in H as [H | (di & h2 & Hdi & H)]; [|done].
    by apply dict_items_raises in H.
Qed.

Lemma set_all_raises result tc h e h' :
  set_all result tc h = (inl e, h') → merge_error e.
Proof.
  revert h. induction tc as [|[path v] tc IH]; intros h; [done|].
  cbn [set_all]. intros [H | (u & h1 & Hu & H)]%bind_inl.
  - by apply set_nested_value_raises in H.
  - by apply IH in H.
Qed.

Lemma apply_templated_fields_raises job_dict tc h e h' :
  apply_templated_fields job_dict tc h = (inl e, h') → merge_error e.
Proof.
  unfold apply_templated_fields. intros [H | (r & h1 & Hr & H)]%bind_inl.
  - unfold shallow_copy in H. right.
    destruct job_dict as [| | | |l]; try congruence.
    destruct (h !! l); congruence.
  - apply bind_inl in H as [H | (u & h2 & Hu & H)]; [|done].
    by apply set_all_raises in H.
Qed.

(** * The loop of [export_jobs_yml] *)

Section ExportFacts.
Variable unicode_lower : text → N → text → text.
Variable read_file : text → text + text.
Variable yaml_load : text → text + list (text * text).
Variable yaml_dump : heap → list (text * value) → text.

Local Abbreviation norm := (normalize_job_name_for_identifier unicode_lower).
Local Abbreviation export := (export_jobs_yml unicode_lower read_file yaml_load yaml_dump).

Lemma loop_body_step flag tc st j :
  let a := allocate unicode_lower (user_keys st) (name j) in
  let r := loop_body unicode_lower flag tc st j in
  user_keys (fst r) = {[fst a]} ∪ user_keys st
  ∧ duplicate_jobs (fst r) = duplicate_jobs st ++ dup_trace unicode_lower (user_keys st) [name j]
  ∧ match snd r with
    | None => ∃ v, export_jobs (fst r) = dict_set (fst a) v (export_jobs st)
    | Some e => export_jobs (fst r) = export_jobs st ∧ propagated e
    end.
Proof.
  cbv zeta. unfold loop_body. cbn [dup_trace]. fold (allocate unicode_lower (user_keys st) (name j)).
  destruct (allocate unicode_lower (user_keys st) (name j)) as [k c]. cbn [fst snd].
  rewrite app_nil_r.
  destruct (to_load_format j flag (objects st)) as [[e|v] h1].
  { cbn. split; [done|]. split; [by destruct (1 <? c); rewrite ?app_nil_r|].
    split; [done|]. left. by exists e. }
  destruct tc as [|field tc].
  { cbn. split; [done|]. split; [by destruct (1 <? c); rewrite ?app_nil_r|]. by exists v. }
  destruct (apply_templated_fields v (field :: tc) h1) as [[e|v'] h2] eqn:Ha.
  - cbn. split; [done|]. split; [by destruct (1 <? c); rewrite ?app_nil_r|]. split; [done|].
    right. by apply apply_templated_fields_raises in Ha.
  - cbn. split; [done|]. split; [by destruct (1 <? c); rewrite ?app_nil_r|]. by exists v'.
Qed.

Lemma dup_trace_cons keys n names :
  dup_trace unicode_lower keys (n :: names)
  = dup_trace unicode_lower keys [n]
    ++ dup_trace unicode_lower ({[fst (allocate unicode_lower keys n)]} ∪ keys) names.
Proof. cbn [dup_trace]. by rewrite app_nil_r. Qed.

Lemma export_loop_trace flag tc jobs st :
  keys_tracked st →
  let r := export_loop unicode_lower flag tc jobs st in
  ∃ n : nat,
    (export_jobs (fst r)).*1
      = (export_jobs st).*1 ++ take n (key_trace unicode_lower (user_keys st) (name <$> jobs))
    ∧ keys_tracked (fst r)
    ∧ match snd r with
      | None => n = length jobs
                ∧ duplicate_jobs (fst r)
                  = duplicate_jobs st ++ dup_trace unicode_lower (user_keys st) (name <$> jobs)
      | Some e => (n < length jobs)%nat ∧ propagated e
      end.
Proof.
  cbv zeta. revert st. induction jobs as [|j jobs IH]; intros st Hst.
  { exists O. cbn. by rewrite !app_nil_r. }
  cbn [export_loop].
  pose proof (loop_body_step flag tc st j) as Hstep. cbv zeta in Hstep.
  destruct (loop_body unicode_lower flag tc st j) as [st1 [e|]];
    cbn [fst snd] in Hstep; destruct Hstep as (Hkeys & Hdups & Hjobs).
  - destruct Hjobs as [Hjobs Hne]. exists O. cbn [fst snd take length].
    rewrite Hjobs, app_nil_r. split; [done|]. split; [|split; [lia | done]].
    intros k Hk. rewrite Hkeys. apply elem_of_union. right.
    apply Hst. by rewrite <- Hjobs.
  - destruct Hjobs as [v Hjobs].
    set (k := fst (allocate unicode_lower (user_keys st) (name j))) in *.
    assert (k ∉ (export_jobs st).*1) as Hfresh.
    { intros Hk%Hst. by apply (allocate_fresh unicode_lower (user_keys st) (name j)). }
    rewrite dict_set_fresh in Hjobs by done.
    assert (keys_tracked st1) as Hst1.
    { intros k'. rewrite Hjobs, Hkeys, fmap_app, elem_of_app, elem_of_union.
      intros [Hk' | Hk']; [right; by apply Hst | left].
      apply list_elem_of_singleton in Hk'. by apply elem_of_singleton. }
    destruct (IH st1 Hst1) as (n & Hn & Htracked & Hend).
    exists (S n). rewrite Hn, Hjobs, Hkeys, fmap_app, <- app_assoc.
    split; [done|]. split; [done|].
    destruct (snd (export_loop unicode_lower flag tc jobs st1)) as [e|].
    + destruct Hend as [Hlt Hne]. split; [simpl; lia | done].
    + destruct Hend as [-> Hd]. split; [done|].
      rewrite Hd, Hdups, Hkeys, fmap_cons,
        (dup_trace_cons (user_keys st) (name j) (name <$> jobs)).
      by rewrite <- app_assoc.
Qed.

Lemma keys_tracked_initial h : keys_tracked (initial_state h).
Proof. intros k Hk. by apply elem_of_nil in Hk. Qed.

(** The three ways a call ends, with the number of jobs processed. *)
Lemma export_run jobs flag tf h :
  let r := export jobs flag tf h in
  let names := name <$> jobs in
  let n := length (export_jobs (locals r)) in
  (export_jobs (locals r)).*1 = key_trace unicode_lower ∅ (take n names)
  ∧ (n ≤ length jobs)%nat
  ∧ ((raised r = Some duplicate_error ∧ n = length jobs ∧ stdout r = []
      ∧ duplicate_jobs (locals r) = dup_trace unicode_lower ∅ names
      ∧ dup_trace unicode_lower ∅ names ≠ []
      ∧ log r = [py_strip is_space (error_message (dup_trace unicode_lower ∅ names))])
     ∨ (raised r = None ∧ n = length jobs
        ∧ dup_trace unicode_lower ∅ names = []
        ∧ log r = []
        ∧ stdout r = (schema_comment ++ [nl]) ++ [nl]
            ++ unescape_curly_braces (yaml_dump (objects (locals r)) (export_jobs (locals r))))
     ∨ (∃ e, raised r = Some e ∧ propagated e ∧ stdout r = [] ∧ log r = []
        ∧ (n = O ∨ (n < length jobs)%nat))).
Proof.
  cbv zeta. unfold export_jobs_yml.
  destruct (load_template read_file yaml_load tf) as [e|tc].
  { cbn. split; [done|]. split; [lia|]. right. right. exists (External e).
    split; [done|]. split; [left; by exists e|]. do 2 (split; [done|]). by left. }
  pose proof (export_loop_trace flag tc jobs (initial_state h) (keys_tracked_initial h))
    as (n & Hkeys & _ & Hend).
  cbn [initial_state export_jobs user_keys duplicate_jobs app fmap list_fmap] in Hkeys, Hend.
  destruct (export_loop unicode_lower flag tc jobs (initial_state h)) as [st oe].
  cbn [fst snd] in Hkeys, Hend.
  assert ((n ≤ length jobs)%nat) as Hle by (destruct oe, Hend; lia).
  assert (length (export_jobs st) = n) as Hlen.
  { rewrite <- (length_fmap fst), Hkeys, length_take, key_trace_length, length_fmap. lia. }
  destruct oe as [e|].
  - cbn [locals raised stdout log]. rewrite Hlen, <- key_trace_take.
    split; [done|]. split; [done|]. right. right. exists e.
    destruct Hend as [Hlt Hne]. do 4 (split; [done|]). by right.
  - destruct Hend as [-> Hdups]. destruct (duplicate_jobs st) as [|d ds] eqn:Hd.
    + cbn [locals raised stdout log]. rewrite Hlen, <- key_trace_take.
      split; [done|]. split; [done|]. right. left. by repeat split.
    + cbn [locals raised stdout log]. rewrite Hlen, <- key_trace_take.
      split; [done|]. split; [done|]. left. rewrite Hd, <- Hdups. by repeat split.
Qed.

Lemma dup_trace_empty_start names :
  dup_trace unicode_lower ∅ names ≠ [] ↔ same_base unicode_lower names.
Proof.
  rewrite dup_trace_nonempty. split; [|by right].
  intros [(m & _ & Hm) | H]; [|done]. by apply not_elem_of_empty in Hm.
Qed.

Lemma dup_trace_length keys names :
  (length (dup_trace unicode_lower keys names) ≤ length names)%nat.
Proof.
  revert keys. induction names as [|n names IH]; intros keys; [done|].
  cbn [dup_trace]. rewrite length_app. specialize (IH ({[fst (allocate unicode_lower keys n)]} ∪ keys)).
  destruct (1 <? snd (allocate unicode_lower keys n)); simpl; lia.
Qed.

Lemma dup_trace_keys keys names :
  dup_trace unicode_lower keys names
  = omap (suffixed_record unicode_lower) (zip names (key_trace unicode_lower keys names)).
Proof.
  revert keys. induction names as [|n names IH]; intros keys; [done|].
  cbn [dup_trace key_trace zip zip_with omap list_omap]. rewrite IH.
  unfold suffixed_record at 2. cbn [fst snd].
  destruct (allocate_spec unicode_lower keys n) as [[Hr Hout] | (Hlt & Hk & Hin & Hout & Hall)].
  - rewrite Hr. cbn [fst snd]. rewrite decide_True by done. done.
  - assert ((1 <? snd (allocate unicode_lower keys n)) = true) as -> by by apply N.ltb_lt.
    rewrite decide_False; [done|]. rewrite Hk. apply suffixed_neq_base.
Qed.
End ExportFacts.

(** * The template merger and sharing *)

Lemma dict_get_set_ne k k' v items :
  k ≠ k' → dict_get k (dict_set k' v items) = dict_get k items.
Proof.
  intros Hne. induction items as [|[k0 v0] items IH]; cbn [dict_set dict_get].
  - by rewrite decide_False.
  - destruct (decide (k0 = k')) as [->|Hk0]; cbn [dict_get].
    + by rewrite !decide_False.
    + by rewrite IH.
Qed.

Lemma py_split_nonempty sep s : py_split sep s ≠ [].
Proof.
  destruct s as [|c s]; [done|]. cbn [py_split].
  destruct (c =? sep); [done|]. by destruct (py_split sep s).
Qed.

Lemma removelast_nil_single (parts : list text) :
  parts ≠ [] → removelast parts = [] → parts = [List.last parts []].
Proof.
  destruct parts as [|p [|q parts]]; [done|done|]. intros _ H. discriminate H.
Qed.

Lemma dict_items_inr d h j its h' :
  dict_items d h = (inr (j, its), h') →
  h' = h ∧ d = VRef j ∧ h !! j = Some (ODict its).
Proof.
  unfold dict_items. destruct d as [| | | |l]; try done.
  destruct (h !! l) as [[items|elems]|] eqn:E; try done.
  by intros [= -> -> ->].
Qed.

Section Sharing.
(** [l] is the job dictionary with items [items0]; its copy gets the index
    [n0], the size of the store at the call. *)
Variables (l n0 : nat) (items0 : list (text * value)).
Hypothesis l_old : (l < n0)%nat.

Lemma safe_items_get its k v : safe_items l n0 its → dict_get k its = Some v → safe l n0 v.
Proof.
  induction 1 as [|[k0 v0] its H0 Hs IH]; [done|]. cbn [dict_get].
  destruct (decide (k0 = k)); [by intros [= <-] | exact IH].
Qed.

Lemma safe_items_set its k v : safe_items l n0 its → safe l n0 v → safe_items l n0 (dict_set k v its).
Proof.
  intros Hs Hv. induction Hs as [|[k0 v0] its H0 Hs IH]; cbn [dict_set].
  - by repeat constructor.
  - destruct (decide (k0 = k)); by constructor.
Qed.

Lemma sharing_inv_alloc h : sharing_inv l n0 items0 h → sharing_inv l n0 items0 (h ++ [ODict []]).
Proof.
  intros (Hlen & Hl & Hsafe). split; [rewrite length_app; simpl; lia|]. split.
  - by apply lookup_app_l_Some.
  - intros i its Hi. rewrite lookup_snoc_Some. intros [[_ H] | [_ [= <-]]].
    + by apply (Hsafe i).
    + constructor.
Qed.

Lemma sharing_inv_store h j its :
  sharing_inv l n0 items0 h → (j < l ∨ n0 ≤ j)%nat → safe_items l n0 its →
  sharing_inv l n0 items0 (<[j := ODict its]> h).
Proof.
  intros (Hlen & Hl & Hsafe) Hj Hits. split; [by rewrite length_insert|]. split.
  - rewrite list_lookup_insert_ne by lia. done.
  - intros i its' Hi. rewrite list_lookup_insert. case_decide as Hd.
    + by intros [= <-].
    + by apply Hsafe.
Qed.

(** A walk that starts at a safe l n0 value never reaches the job dictionary or
    its copy. *)
Lemma descend_safe parts d h d' h' :
  sharing_inv l n0 items0 h → safe l n0 d → descend parts d h = (inr d', h') →
  sharing_inv l n0 items0 h' ∧ safe l n0 d' ∧ h' !! n0 = h !! n0.
Proof.
  revert d h. induction parts as [|part parts IH]; intros d h Hinv Hd.
  { by intros [= <- <-]. }
  cbn [descend]. intros ([j its] & h1 & Hdi & Hk)%bind_inr.
  apply dict_items_inr in Hdi as (-> & -> & Hj). cbn [fst snd] in Hk.
  assert (safe_items l n0 its) as Hits.
  { destruct Hinv as (_ & _ & Hsafe). apply (Hsafe j); [|done]. simpl in Hd. lia. }
  destruct (dict_get part its) as [v|] eqn:Hget.
  - apply IH in Hk; [done | done |]. by apply (safe_items_get its part).
  - apply bind_inr in Hk as (l' & h2 & Hal & Hk). injection Hal as <- <-.
    apply bind_inr in Hk as (u & h3 & Hst & Hk). injection Hst as _ <-.
    pose proof Hinv as (Hlen & _).
    assert (safe l n0 (VRef (length h))) as Hnew by (simpl; lia).
    apply IH in Hk as (Hinv' & Hd' & Hn0); [| |done].
    + split; [done|]. split; [done|]. rewrite Hn0.
      rewrite list_lookup_insert_ne by (simpl in Hd; lia).
      by rewrite lookup_app_l.
    + apply sharing_inv_store; [by apply sharing_inv_alloc | simpl in Hd; lia |].
      by apply safe_items_set.
Qed.

(** One template path, applied to the copy: the copy keeps every entry but
    the one a one-part path names. *)
Lemma set_nested_value_top path t h its h' :
  sharing_inv l n0 items0 h → h !! n0 = Some (ODict its) →
  set_nested_value (VRef n0) path (VStr t) h = (inr tt, h') →
  sharing_inv l n0 items0 h'
  ∧ ∃ its', h' !! n0 = Some (ODict its')
      ∧ ∀ k v, dict_get k its = Some v → py_split dot path ≠ [k] →
               dict_get k its' = Some v.
Proof.
  intros Hinv Htop. unfold set_nested_value.
  pose proof (py_split_nonempty dot path) as Hne.
  set (parts := py_split dot path) in *.
  pose proof Hinv as (Hlen & _ & Hsafe).
  assert (safe_items l n0 its) as Hits by (apply (Hsafe n0); [lia | done]).
  intros (d' & h1 & Hdesc & Hk)%bind_inr.
  apply bind_inr in Hk as ([j its1] & h2 & Hdi & Hst).
  apply dict_items_inr in Hdi as (-> & -> & Hj). cbn [fst snd] in Hst.
  injection Hst as <-.
  destruct (removelast parts) as [|p1 rest] eqn:Hrl.
  - cbn [descend] in Hdesc. unfold ret in Hdesc. injection Hdesc as Hjn Hh1.
    subst j h1. rewrite Htop in Hj. injection Hj as <-.
    apply removelast_nil_single in Hrl; [|done].
    split; [apply sharing_inv_store; [done | lia | by apply safe_items_set]|].
    eexists. split; [by apply list_lookup_insert_eq|].
    intros k v Hget Hk. rewrite dict_get_set_ne; [done|].
    intros ->. by rewrite Hrl in Hk.
  - cbn [descend] in Hdesc.
    apply bind_inr in Hdesc as ([j0 its0] & h0 & Hdi & Hk).
    apply dict_items_inr in Hdi as (-> & [= <-] & Hj0). cbn [fst snd] in Hk.
    rewrite Htop in Hj0. injection Hj0 as <-.
    destruct (dict_get p1 its) as [v1|] eqn:Hp1.
    + apply descend_safe in Hk as (Hinv1 & Hd' & Hn0);
        [|done | by apply (safe_items_get its p1)].
      assert (safe_items l n0 its1) as Hits1.
      { destruct Hinv1 as (_ & _ & Hs1). apply (Hs1 j); [simpl in Hd'; lia | done]. }
      split.
      { apply sharing_inv_store; [done | simpl in Hd'; lia | by apply safe_items_set]. }
      exists its. split; [|done].
      rewrite list_lookup_insert_ne by (simpl in Hd'; lia). by rewrite Hn0.
    + apply bind_inr in Hk as (l' & h3 & Hal & Hk). injection Hal as <- <-.
      apply bind_inr in Hk as (u & h4 & Hst & Hk). injection Hst as _ <-.
      assert (safe l n0 (VRef (length h))) as Hnew by (simpl; lia).
      assert (sharing_inv l n0 items0 (<[n0 := ODict (dict_set p1 (VRef (length h)) its)]> (h ++ [ODict []])))
        as Hinv3.
      { apply sharing_inv_store; [by apply sharing_inv_alloc | lia | by apply safe_items_set]. }
      apply descend_safe in Hk as (Hinv1 & Hd' & Hn0); [|done..].
      assert (safe_items l n0 its1) as Hits1.
      { destruct Hinv1 as (_ & _ & Hs1). apply (Hs1 j); [simpl in Hd'; lia | done]. }
      split.
      { apply sharing_inv_store; [done | simpl in Hd'; lia | by apply safe_items_set]. }
      exists (dict_set p1 (VRef (length h)) its). split.
      * rewrite list_lookup_insert_ne by (simpl in Hd'; lia). rewrite Hn0.
        apply list_lookup_insert_eq. rewrite length_app. simpl. lia.
      * intros k v Hget _. rewrite dict_get_set_ne; [done|]. intros ->. congruence.
Qed.

Lemma set_all_top tc h its h' :
  sharing_inv l n0 items0 h → h !! n0 = Some (ODict its) →
  set_all (VRef n0) tc h = (inr tt, h') →
  sharing_inv l n0 items0 h'
  ∧ ∃ its', h' !! n0 = Some (ODict its')
      ∧ ∀ k v, dict_get k its = Some v →
               (∀ p t, (p, t) ∈ tc → py_split dot p ≠ [k]) →
               dict_get k its' = Some v.
Proof.
  revert h its. induction tc as [|[path t] tc IH]; intros h its Hinv Htop.
  { intros [= <-]. split; [done|]. by exists its. }
  cbn [set_all]. intros ([] & h1 & Hset & Hrest)%bind_inr.
  apply set_nested_value_top with (its := its) in Hset as (Hinv1 & its1 & Htop1 & Hkeep1);
    [|done..].
  apply IH with (its := its1) in Hrest as (Hinv' & its' & Htop' & Hkeep'); [|done..].
  split; [done|]. exists its'. split; [done|].
  intros k v Hget Hk. apply Hkeep'.
  - apply Hkeep1; [done|]. apply (Hk path t). by left.
  - intros p t' Hin. apply (Hk p t'). by right.
Qed.
End Sharing.

(** C7: [normalize_job_name_for_identifier] is idempotent on every string,
    whatever the lower-case table does above ASCII. *)
Theorem normalize_idempotent (unicode_lower : text → N → text → text) (x : text) :
  normalize_job_name_for_identifier unicode_lower
    (normalize_job_name_for_identifier unicode_lower x)
  = normalize_job_name_for_identifier unicode_lower x.
Proof.
  apply normalize_fixes.
  - apply normalize_ident.
  - apply normalize_no_double.
  - apply normalize_ends.
  - apply normalize_ends.
Qed.

(** C8: for every string the normalized name consists of characters of
    [[a-z0-9_]] only, has no two consecutive underscores, and neither starts
    nor ends with an underscore (the empty result has no first or last
    character); and the name "My Daily Job!!" becomes "my_daily_job". *)
Theorem normalize_shape (unicode_lower : text → N → text → text) (x : text) :
  let out := normalize_job_name_for_identifier unicode_lower x in
  Forall (λ c, is_ident_char c = true) out
  ∧ contains (cps "__") out = false
  ∧ head out ≠ Some underscore
  ∧ last out ≠ Some underscore
  ∧ normalize_job_name_for_identifier unicode_lower (cps "My Daily Job!!")
    = cps "my_daily_job".
Proof.
  cbv zeta. split; [apply normalize_ident|].
  split; [apply normalize_no_double|].
  split; [apply normalize_ends|]. split; [apply normalize_ends|reflexivity].
Qed.

(** C4 (amended): escaping never leaves a raw brace in the text; and
    unescaping the escaped text gives the text back when the text has none of
    the two sentinels and none of ["<[{"] and [">]}"], the two ways a brace
    can complete a sentinel. *)
Theorem escape_unescape_roundtrip (t : text) :
  (contains (cps "{") (escape_curly_braces t) = false
   ∧ contains (cps "}") (escape_curly_braces t) = false)
  ∧ (contains (cps "<[<") t = false → contains (cps "<[{") t = false →
     contains (cps ">]>") t = false → contains (cps ">]}") t = false →
     unescape_curly_braces (escape_curly_braces t) = t).
Proof.
  split.
  - split; apply not_true_is_false; intros H; apply contains_char in H;
      by destruct (escape_no_brace _ _ H).
  - intros H1 H2 H3 H4.
    rewrite unescape_unfold, escape_flat_map, unescape_open by done.
    by apply unescape_close.
Qed.

Lemma escape_unescape_roundtrip_witness :
  unescape_curly_braces (escape_curly_braces (cps "cmd: {{ env_var('X') }} } {"))
  = cps "cmd: {{ env_var('X') }} } {".
Proof.
  apply (proj2 (escape_unescape_roundtrip (cps "cmd: {{ env_var('X') }} } {")));
    reflexivity.
Defined.

(** C4 as stated fails: a text that holds a sentinel comes back changed. *)
Lemma escape_unescape_not_identity :
  unescape_curly_braces (escape_curly_braces (cps "{{ job<[<1 }}")) = cps "{{ job{1 }}"
  ∧ unescape_curly_braces (escape_curly_braces (cps "{{ job<[<1 }}")) ≠ cps "{{ job<[<1 }}".
Proof. split; [reflexivity | discriminate]. Qed.

(** The keys and the duplicate entries of three jobs named "Build". *)
Lemma build_keys ul :
  key_trace ul ∅ [cps "Build"; cps "Build"; cps "Build"]
  = [cps "build"; cps "build_1"; cps "build_2"].
Proof. vm_compute. reflexivity. Qed.

Lemma build_dups ul :
  dup_trace ul ∅ [cps "Build"; cps "Build"; cps "Build"]
  = [ {| dup_name := cps "Build"; dup_identifier := cps "build_1"; dup_base_key := cps "build" |};
      {| dup_name := cps "Build"; dup_identifier := cps "build_2"; dup_base_key := cps "build" |} ].
Proof. vm_compute. reflexivity. Qed.

(** C1: three jobs named "Build", whatever their [to_load_format] and the
    template.  With [n] the number of jobs the loop has inserted, the keys in
    use are the first [n] of "build", "build_1", "build_2"; the call raises
    the duplicate-name error exactly when all three were processed; it never
    returns normally and nothing is printed. *)
Theorem three_builds_fail ul rf yl yd f1 f2 f3 (flag : bool) (tf : option text) (h : heap) :
  let jobs := [ {| name := cps "Build"; to_load_format := f1 |};
                {| name := cps "Build"; to_load_format := f2 |};
                {| name := cps "Build"; to_load_format := f3 |} ] in
  let r := export_jobs_yml ul rf yl yd jobs flag tf h in
  let n := length (export_jobs (locals r)) in
  (export_jobs (locals r)).*1 = take n [cps "build"; cps "build_1"; cps "build_2"]
  ∧ (raised r = Some duplicate_error ↔ n = 3%nat)
  ∧ raised r ≠ None
  ∧ stdout r = [].
Proof.
  intros jobs r n.
  destruct (export_run ul rf yl yd jobs flag tf h) as (Hkeys & Hle & Hend).
  fold r n in Hkeys, Hle, Hend.
  change (name <$> jobs) with [cps "Build"; cps "Build"; cps "Build"] in *.
  rewrite <- key_trace_take, build_keys in Hkeys. rewrite build_dups in Hend.
  split; [exact Hkeys|].
  destruct Hend as [(Hr & Hn & Hout & _) | [(Hr & Hn & Hd & _) | (e & Hr & Hne & Hout & _ & Hn)]].
  - rewrite Hr. by repeat split.
  - discriminate Hd.
  - rewrite Hr. split; [|by split]. split.
    + intros [= ->]. exfalso. eapply propagated_not_value; [exact Hne | reflexivity].
    + intros Hn3. change (length jobs) with 3%nat in Hn. lia.
Qed.

(** The run on three jobs that build an empty dictionary each. *)
Example three_builds_run :
  let r := export_jobs_yml plain_lower no_file no_fields plain_dump three_builds false None [] in
  (export_jobs (locals r)).*1 = [cps "build"; cps "build_1"; cps "build_2"]
  ∧ raised r = Some duplicate_error ∧ stdout r = []
  ∧ dup_name <$> duplicate_jobs (locals r) = [cps "Build"; cps "Build"].
Proof. vm_compute. by repeat split. Qed.

(** C2 (amended): when the export fails with a [ValueError], the message is
    the fixed text, the same for every input.  The names go to the error log
    instead: one message, built from one entry per job whose key is not its
    base identifier, in input order; so fewer entries than jobs. *)
Theorem duplicate_error_payload ul rf yl yd jobs (flag : bool) (tf : option text)
    (h : heap) (msg : text) :
  let r := export_jobs_yml ul rf yl yd jobs flag tf h in
  let dups := duplicate_jobs (locals r) in
  raised r = Some (ValueError msg) →
  msg = cps "Duplicate job names detected. Please rename jobs to have unique names."
  ∧ log r = [py_strip is_space (error_message dups)]
  ∧ dups = omap (suffixed_record ul) (zip (name <$> jobs) (export_jobs (locals r)).*1)
  ∧ (length dups < length jobs)%nat.
Proof.
  intros r dups Hraised.
  destruct (export_run ul rf yl yd jobs flag tf h) as (Hkeys & Hle & Hend).
  fold r in Hkeys, Hle, Hend.
  destruct Hend as [(Hr & Hn & Hout & Hd & Hne & Hlog) | [(Hr & _) | (e & Hr & Hne & _)]].
  - rewrite Hr in Hraised. injection Hraised as <-. split; [done|].
    unfold dups. rewrite Hd. split; [done|]. split.
    + rewrite Hkeys, Hn, <- (length_fmap name), firstn_all. apply dup_trace_keys.
    + destruct jobs as [|j jobs]; [done|]. rewrite fmap_cons. cbn [dup_trace].
      assert ((1 <? snd (allocate ul ∅ (name j))) = false) as ->.
      { apply not_true_is_false. rewrite allocate_counter. apply not_elem_of_empty. }
      cbn [app length].
      pose proof (dup_trace_length ul ({[fst (allocate ul ∅ (name j))]} ∪ ∅) (name <$> jobs)) as Hl.
      rewrite length_fmap in Hl. lia.
  - congruence.
  - rewrite Hr in Hraised. injection Hraised as ->.
    exfalso. eapply propagated_not_value; [exact Hne | reflexivity].
Qed.

Lemma duplicate_error_payload_witness :
  let r := export_jobs_yml plain_lower no_file no_fields plain_dump three_builds false None [] in
  cps "Duplicate job names detected. Please rename jobs to have unique names."
    = cps "Duplicate job names detected. Please rename jobs to have unique names."
  ∧ log r = [py_strip is_space (error_message (duplicate_jobs (locals r)))]
  ∧ duplicate_jobs (locals r)
    = omap (suffixed_record plain_lower) (zip (name <$> three_builds) (export_jobs (locals r)).*1)
  ∧ (length (duplicate_jobs (locals r)) < length three_builds)%nat.
Proof.
  apply (duplicate_error_payload plain_lower no_file no_fields plain_dump three_builds
           false None []). vm_compute. reflexivity.
Defined.

(** The log of that run: the header and one line for the second and one for
    the third job. *)
Example three_builds_log :
  log (export_jobs_yml plain_lower no_file no_fields plain_dump three_builds false None [])
  = [ 10060 :: cps " Duplicate job names detected. Job names must be unique to avoid identifier conflicts. Please rename jobs to have unique names "
      ++ [nl] ++ cps "  - Job 'Build' " ++ [nl] ++ cps "  - Job 'Build'" ].
Proof. vm_compute. reflexivity. Qed.

(** C2 as stated fails on three jobs named "Build": the message of the
    raised error does not hold the name, and the log lists two jobs, not
    three. *)
Lemma duplicate_error_names_no_job :
  let r := export_jobs_yml plain_lower no_file no_fields plain_dump three_builds false None [] in
  ∃ msg, raised r = Some (ValueError msg)
    ∧ contains (cps "Build") msg = false
    ∧ dup_name <$> duplicate_jobs (locals r) = [cps "Build"; cps "Build"]
    ∧ length (duplicate_jobs (locals r)) ≠ length three_builds.
Proof.
  eexists. split; [vm_compute; reflexivity|]. split; [by vm_compute|].
  split; [by vm_compute|]. vm_compute. discriminate.
Qed.

(** C3: the duplicate-name error is raised exactly when two jobs normalize
    to the same base identifier and the loop has processed every job (only an
    exception from a job's [to_load_format] or from the merger, which
    propagates, ends the loop early); the keys given by then are pairwise
    distinct. *)
Theorem duplicate_error_iff ul rf yl yd jobs (flag : bool) (tf : option text) (h : heap) :
  let r := export_jobs_yml ul rf yl yd jobs flag tf h in
  (raised r = Some duplicate_error
     ↔ same_base ul (name <$> jobs) ∧ length (export_jobs (locals r)) = length jobs)
  ∧ NoDup (export_jobs (locals r)).*1.
Proof.
  intros r.
  destruct (export_run ul rf yl yd jobs flag tf h) as (Hkeys & Hle & Hend).
  fold r in Hkeys, Hle, Hend.
  split; [|rewrite Hkeys; apply key_trace_NoDup].
  destruct Hend as [(Hr & Hn & _ & _ & Hd & _) | [(Hr & Hn & Hd & _) | (e & Hr & Hne & _ & _ & Hn)]].
  - split; [|done]. intros _. split; [|done]. by apply dup_trace_empty_start.
  - rewrite Hr. split; [done|]. intros [Hs _].
    apply dup_trace_empty_start in Hs. done.
  - rewrite Hr. split.
    { intros [= ->]. exfalso. eapply propagated_not_value; [exact Hne | reflexivity]. }
    intros [Hs Hall]. exfalso.
    destruct Hn as [Hn | Hn]; [|lia].
    rewrite Hn in Hall. destruct jobs; [|done].
    destruct Hs as (i & j & a & b & _ & Hi & _). done.
Qed.

(** C6: the keys under ["jobs"] are pairwise distinct, and each is what the
    allocator promises for its job: the base identifier when no earlier job
    took it, else the first of [base_1], [base_2], ... that no earlier job
    took.  The keys cover the jobs processed so far, also when the call ends
    in an exception. *)
Theorem allocated_keys_distinct ul rf yl yd jobs (flag : bool) (tf : option text) (h : heap) :
  let r := export_jobs_yml ul rf yl yd jobs flag tf h in
  let keys := (export_jobs (locals r)).*1 in
  NoDup keys
  ∧ allocated ul ∅ (name <$> take (length keys) jobs) keys.
Proof.
  intros r keys.
  destruct (export_run ul rf yl yd jobs flag tf h) as (Hkeys & _).
  fold r in Hkeys. unfold keys. rewrite length_fmap, fmap_take, Hkeys.
  split; [apply key_trace_NoDup | apply key_trace_allocated].
Qed.

Lemma export_loop_no_template ul flag jobs st :
  keys_tracked st →
  let r := export_loop ul flag [] jobs st in
  let sa := serialize_all flag jobs (objects st) in
  export_jobs (fst r)
    = export_jobs st ++ zip (key_trace ul (user_keys st) (name <$> jobs)) (fst sa)
  ∧ objects (fst r) = snd sa.
Proof.
  cbv zeta. revert st. induction jobs as [|j jobs IH]; intros st Hst.
  { cbn. by rewrite app_nil_r. }
  cbn [export_loop serialize_all].
  pose proof (loop_body_step ul flag [] st j) as Hstep. cbv zeta in Hstep.
  pose proof (allocate_fresh ul (user_keys st) (name j)) as Hfresh.
  unfold loop_body in *. fold (allocate ul (user_keys st) (name j)) in *.
  destruct (allocate ul (user_keys st) (name j)) as [k c] eqn:Ha. cbn [fst snd] in *.
  destruct (to_load_format j flag (objects st)) as [[e|v] h1].
  { cbn. by rewrite app_nil_r. }
  cbn [no_error fst snd] in *. destruct Hstep as (Hkeys & _ & _).
  set (st1 := {| export_jobs := dict_set k v (export_jobs st);
                 user_keys := {[k]} ∪ user_keys st;
                 duplicate_jobs := _; objects := h1 |}) in *.
  assert (k ∉ (export_jobs st).*1) as Hk by (intros H%Hst; done).
  assert (keys_tracked st1) as Hst1.
  { intros k'. cbn. rewrite dict_set_fresh, fmap_app, elem_of_app, elem_of_union by done.
    intros [H | H]; [right; by apply Hst | left].
    apply list_elem_of_singleton in H. by apply elem_of_singleton. }
  destruct (IH st1 Hst1) as [Hjobs Hobj]. rewrite Hjobs, Hobj. split; [|done].
  cbn [st1 export_jobs user_keys objects fmap list_fmap key_trace zip zip_with fst snd].
  rewrite dict_set_fresh by done. rewrite Ha. cbn [fst].
  by rewrite <- app_assoc.
Qed.

(** C9: without a template file, what stands under the job keys are the
    values the [to_load_format] calls returned, each under the key of its
    job, and the store is the one those calls left: the export has written
    nothing into the dictionaries. *)
Theorem no_template_unmodified ul rf yl yd jobs (flag : bool) (h : heap) :
  let r := export_jobs_yml ul rf yl yd jobs flag None h in
  let sa := serialize_all flag jobs h in
  export_jobs (locals r) = zip (key_trace ul ∅ (name <$> jobs)) (fst sa)
  ∧ objects (locals r) = snd sa.
Proof.
  cbv zeta. unfold export_jobs_yml. cbn [load_template].
  pose proof (export_loop_no_template ul flag jobs (initial_state h) (keys_tracked_initial h))
    as Hloop. cbv zeta in Hloop. cbn [initial_state export_jobs user_keys objects app] in Hloop.
  destruct (export_loop ul flag [] jobs (initial_state h)) as [st [e|]];
    cbn [fst snd] in Hloop; [exact Hloop|].
  destruct (duplicate_jobs st); exact Hloop.
Qed.

(** C10: when the export returns, the text printed after the schema comment
    is the unescaped serialization [y] of the whole document.  It holds no
    sentinel, so it differs from [y] as soon as [y] holds one, wherever it
    comes from; and a sentinel between texts without angle brackets is
    printed as the brace. *)
Theorem unescape_rewrites_job_values ul rf yl yd jobs (flag : bool) (tf : option text) (h : heap) :
  let r := export_jobs_yml ul rf yl yd jobs flag tf h in
  let y := yd (objects (locals r)) (export_jobs (locals r)) in
  raised r = None →
  stdout r = (schema_comment ++ [nl]) ++ [nl] ++ unescape_curly_braces y
  ∧ contains (cps "<[<") (unescape_curly_braces y) = false
  ∧ contains (cps ">]>") (unescape_curly_braces y) = false
  ∧ (contains (cps "<[<") y = true ∨ contains (cps ">]>") y = true
     → unescape_curly_braces y ≠ y)
  ∧ (∀ p q, 60 ∉ p → 62 ∉ p → 60 ∉ q → 62 ∉ q →
       (y = p ++ cps "<[<" ++ q → unescape_curly_braces y = p ++ cps "{" ++ q)
       ∧ (y = p ++ cps ">]>" ++ q → unescape_curly_braces y = p ++ cps "}" ++ q)).
Proof.
  intros r y Hr.
  destruct (export_run ul rf yl yd jobs flag tf h) as (_ & _ & Hend). fold r in Hend.
  destruct (unescape_no_sentinel y) as [HL HR].
  split.
  { destruct Hend as [(Hr' & _) | [(_ & _ & _ & _ & Hout) | (e & Hr' & _)]];
      [congruence | exact Hout | congruence]. }
  split; [exact HL|]. split; [exact HR|]. split.
  - intros [H | H] Heq; rewrite Heq in *; congruence.
  - intros p q Hp1 Hp2 Hq1 Hq2.
    destruct (unescape_rewrites p q Hp1 Hp2 Hq1 Hq2) as [H1 H2].
    split; intros ->; done.
Qed.

Lemma unescape_rewrites_job_values_witness :
  let r := export_jobs_yml plain_lower no_file no_fields plain_dump sentinel_job false None [] in
  raised r = None
  ∧ plain_dump (objects (locals r)) (export_jobs (locals r))
    = cps "jobs:" ++ [nl] ++ cps "  nightly_run:" ++ [nl]
      ++ cps "    description: rows <[<new>]> only" ++ [nl]
  ∧ stdout r
    = (schema_comment ++ [nl]) ++ [nl] ++ cps "jobs:" ++ [nl] ++ cps "  nightly_run:" ++ [nl]
      ++ cps "    description: rows {new} only" ++ [nl]
  ∧ contains (cps "<[<") (stdout r) = false.
Proof.
  cbv zeta.
  pose proof (unescape_rewrites_job_values plain_lower no_file no_fields plain_dump
                sentinel_job false None [] eq_refl) as (Hout & HL & _).
  split; [reflexivity|]. split; [reflexivity|]. split; [|reflexivity].
  rewrite Hout. reflexivity.
Defined.

Lemma stratified_safe (h : heap) (l i : nat) items :
  stratified h l → (i ≤ l)%nat → h !! i = Some (ODict items) →
  safe_items l (length h) items.
Proof.
  intros Hs Hi Hl. specialize (Hs i items Hi Hl).
  eapply Forall_impl; [exact Hs|]. intros [k v] Hv. cbn [snd] in *.
  destruct v as [| | | |j]; try done. simpl in *. lia.
Qed.

(** C5 (amended): the call returns a new top-level dictionary and leaves the
    job dictionary object with its own items; nested containers are not
    copied, so every entry that no one-part path overwrites is the same
    value, the same object for a container, in the result as in the input.
    A path that writes inside such a container writes into the object the
    input holds too: in the example both the result and the job dictionary
    read [{"a": {"b": "X", "c": 1}}] after the call. *)
Theorem apply_templated_fields_shares (h : heap) (l : loc) items tc r h' :
  h !! l = Some (ODict items) → stratified h l →
  apply_templated_fields (VRef l) tc h = (inr r, h') →
  r = VRef (length h)
  ∧ h' !! l = Some (ODict items)
  ∧ (∃ items', h' !! length h = Some (ODict items')
       ∧ ∀ k v, dict_get k items = Some v →
                (∀ p t, (p, t) ∈ tc → py_split dot p ≠ [k]) →
                dict_get k items' = Some v)
  ∧ (let run := apply_templated_fields (VRef 1%nat) example_template example_store in
     fst run = inr (VRef 2%nat)
     ∧ read 3 (snd run) (VRef 2%nat) = Some example_result
     ∧ read 3 (snd run) (VRef 1%nat) = Some example_result
     ∧ snd run !! 1%nat = example_store !! 1%nat).
Proof.
  intros Hl Hstrat Happly.
  assert (l < length h)%nat as Hlt by by apply lookup_lt_Some in Hl.
  unfold apply_templated_fields in Happly.
  apply bind_inr in Happly as (r0 & h1 & Hcopy & Hrest).
  unfold shallow_copy in Hcopy. rewrite Hl in Hcopy. injection Hcopy as <- <-.
  apply bind_inr in Hrest as ([] & h2 & Hset & Hret). injection Hret as <- <-.
  assert (sharing_inv l (length h) items (h ++ [ODict items])) as Hinv.
  { split; [rewrite length_app; simpl; lia|]. split; [by apply lookup_app_l_Some|].
    intros i its Hi. rewrite lookup_snoc_Some. intros [[Hi' Hlook] | [-> [= <-]]].
    - apply (stratified_safe h l i); [done | lia | done].
    - by apply (stratified_safe h l l). }
  apply (set_all_top l (length h) items Hlt) with (its := items) in Hset
    as ((_ & Hl' & _) & items' & Htop & Hkeep); [|done|by apply list_lookup_middle].
  split; [done|]. split; [done|]. split; [by exists items'|].
  by vm_compute.
Qed.

Lemma apply_templated_fields_shares_witness :
  let run := apply_templated_fields (VRef 1%nat) example_template example_store in
  fst run = inr (VRef 2%nat)
  ∧ snd run !! 1%nat = Some (ODict [(cps "a", VRef 0%nat)])
  ∧ ∃ items', snd run !! 2%nat = Some (ODict items')
      ∧ dict_get (cps "a") items' = Some (VRef 0%nat).
Proof.
  cbv zeta.
  destruct (apply_templated_fields (VRef 1%nat) example_template example_store)
    as [res h'] eqn:Hrun.
  assert (res = inr (VRef 2%nat)) as -> by (by vm_compute in Hrun; injection Hrun as <- _).
  pose proof (apply_templated_fields_shares example_store 1%nat
                [(cps "a", VRef 0%nat)] example_template (VRef 2%nat) h'
                eq_refl) as Hshare.
  destruct Hshare as (_ & Hl & (items' & Htop & Hkeep) & _).
  - intros i its Hi Hlook. destruct i as [|[|i]]; [| |lia].
    + injection Hlook as <-. by repeat constructor.
    + injection Hlook as <-. by repeat constructor.
  - exact Hrun.
  - split; [done|]. split; [exact Hl|]. exists items'. split; [exact Htop|].
    apply Hkeep; [reflexivity|]. intros p t Hin.
    apply list_elem_of_singleton in Hin. injection Hin as -> ->. by vm_compute.
Defined.

(** C5 as stated fails: the nested dictionary under "a" is one object for
    the input and the result although the path "a.b" writes into it, so the
    job dictionary read after the call shows the new value. *)
Lemma nested_mapping_shared_and_written :
  let run := apply_templated_fields (VRef 1%nat) example_template example_store in
  ∃ items items',
    example_store !! 1%nat = Some (ODict items)
    ∧ snd run !! 2%nat = Some (ODict items')
    ∧ dict_get (cps "a") items = Some (VRef 0%nat)
    ∧ dict_get (cps "a") items' = Some (VRef 0%nat)
    ∧ snd run !! 0%nat ≠ example_store !! 0%nat
    ∧ read 3 example_store (VRef 1%nat)
      = Some (TDict [(cps "a", TDict [(cps "b", TStr (cps "old")); (cps "c", TInt 1%Z)])])
    ∧ read 3 (snd run) (VRef 1%nat) = Some example_result.
Proof.
  eexists _, _. split; [reflexivity|]. split; [by vm_compute|].
  split; [by vm_compute|]. split; [by vm_compute|]. split; [by vm_compute|].
  split; by vm_compute.
Qed.

(** * Further properties of the exporter *)

(** X1: the [while yaml_key in user_keys] loop always ends through its
    condition: any bound above the size of [user_keys] gives the pair the
    exporter uses, and the key found is not in [user_keys]. *)
Theorem probe_leaves_by_condition (ul : text → N → text → text) (keys : gset text) (job_name : text) (fuel : nat) :
  (size keys < fuel)%nat →
  let base_key := normalize_job_name_for_identifier ul job_name in
  probe fuel keys base_key base_key 1 = probe (S (size keys)) keys base_key base_key 1
  ∧ fst (probe fuel keys base_key base_key 1) ∉ keys.
Proof.
  intros Hf. cbv zeta. rewrite (allocate_fuel ul keys job_name fuel Hf).
  split; [reflexivity | apply allocate_fresh].
Qed.

Lemma probe_leaves_by_condition_witness :
  probe 9 {[cps "build"; cps "build_1"]} (cps "build") (cps "build") 1
  = (cps "build_2", 3).
Proof.
  destruct (probe_leaves_by_condition plain_lower {[cps "build"; cps "build_1"]}
              (cps "Build") 9) as [Heq _].
  - vm_compute. lia.
  - cbv zeta in Heq.
    change (normalize_job_name_for_identifier plain_lower (cps "Build"))
      with (cps "build") in Heq.
    rewrite Heq. vm_compute. reflexivity.
Defined.

Lemma dup_trace_nil_keys (ul : text → N → text → text) (keys : gset text) names :
  dup_trace ul keys names = [] →
  key_trace ul keys names = normalize_job_name_for_identifier ul <$> names.
Proof.
  revert keys. induction names as [|n names IH]; intros keys; [done|].
  cbn [dup_trace key_trace]. intros [Hhead Hrest]%app_eq_nil.
  destruct (1 <? snd (allocate ul keys n)) eqn:Hc; [discriminate Hhead|].
  assert (normalize_job_name_for_identifier ul n ∉ keys) as Hout.
  { intros Hin%allocate_counter. congruence. }
  rewrite (allocate_base ul keys n Hout) in *. rewrite fmap_cons. f_equal.
  by apply IH.
Qed.

(** X2: when the export returns, every job stands under its own normalized
    name (no suffixed key is ever printed), one entry per job, and these
    names are pairwise distinct. *)
Theorem returned_keys_are_names ul rf yl yd jobs (flag : bool) (tf : option text) (h : heap) :
  let r := export_jobs_yml ul rf yl yd jobs flag tf h in
  raised r = None →
  (export_jobs (locals r)).*1
    = (λ j, normalize_job_name_for_identifier ul (name j)) <$> jobs
  ∧ NoDup ((λ j, normalize_job_name_for_identifier ul (name j)) <$> jobs).
Proof.
  intros r Hr.
  destruct (export_run ul rf yl yd jobs flag tf h) as (Hkeys & _ & Hend).
  fold r in Hkeys, Hend.
  destruct Hend as [(Hr' & _) | [(_ & Hn & Hd & _) | (e & Hr' & _)]]; [congruence| |congruence].
  pose proof Hkeys as Hk0.
  rewrite Hn, <- (length_fmap name), firstn_all in Hkeys.
  rewrite (dup_trace_nil_keys ul ∅ _ Hd), <- list_fmap_compose in Hkeys.
  assert ((export_jobs (locals r)).*1
          = (λ j, normalize_job_name_for_identifier ul (name j)) <$> jobs) as Heq
    by exact Hkeys.
  split; [exact Heq|]. rewrite <- Heq, Hk0. apply key_trace_NoDup.
Qed.

Lemma returned_keys_are_names_witness :
  (export_jobs (locals (export_jobs_yml plain_lower no_file no_fields plain_dump
                          sentinel_job false None []))).*1
  = [cps "nightly_run"].
Proof.
  destruct (returned_keys_are_names plain_lower no_file no_fields plain_dump
              sentinel_job false None [] eq_refl) as [Hkeys _].
  rewrite Hkeys. reflexivity.
Defined.

(** X3: output is all or nothing.  Nothing is printed exactly when the call
    raises, and something is logged exactly when it raises the
    duplicate-name error. *)
Theorem output_all_or_nothing ul rf yl yd jobs (flag : bool) (tf : option text) (h : heap) :
  let r := export_jobs_yml ul rf yl yd jobs flag tf h in
  (stdout r = [] ↔ raised r ≠ None)
  ∧ (log r ≠ [] ↔ raised r = Some duplicate_error).
Proof.
  intros r.
  destruct (export_run ul rf yl yd jobs flag tf h) as (_ & _ & Hend). fold r in Hend.
  destruct Hend as [(Hr & _ & Hout & _ & _ & Hlog)
                   | [(Hr & _ & _ & Hlog & Hout) | (e & Hr & Hp & Hout & Hlog & _)]].
  - rewrite Hr, Hout, Hlog. split; split; done.
  - rewrite Hr, Hout, Hlog.
    split; split; try done; intros H; apply (f_equal length) in H;
      rewrite !length_app in H; simpl in H; lia.
  - rewrite Hr, Hout, Hlog.
    split; split; try done; intros [= ->]; exfalso;
      eapply propagated_not_value; [exact Hp | reflexivity].
Qed.

Lemma key_trace_numbered (ul : text → N → text → text) (keys : gset text) (nm : text) (m n : nat) :
  let b := normalize_job_name_for_identifier ul nm in
  (∀ x, x ∈ keys ↔ x = b ∨ ∃ j : nat, (1 ≤ j ≤ m)%nat ∧ x = suffixed b (N.of_nat j)) →
  key_trace ul keys (replicate n nm) = (λ k, suffixed b (N.of_nat k)) <$> seq (S m) n.
Proof.
  intros b. revert keys m. induction n as [|n IH]; intros keys m Hkeys; [done|].
  cbn [replicate key_trace seq fmap list_fmap].
  assert (fst (allocate ul keys nm) = suffixed b (N.of_nat (S m))) as Hkey.
  { destruct (allocate_spec ul keys nm) as [[_ Hout] | (Hlt & Hk & Hin & Hout & Hall)].
    { exfalso. apply Hout, Hkeys. by left. }
    fold b in Hk, Hall. rewrite Hk in Hout |- *. f_equal.
    set (k := snd (allocate ul keys nm) - 1) in *.
    assert (N.of_nat m < k) as Hlow.
    { apply N.lt_nge. intros Hle. apply Hout, Hkeys. right.
      exists (N.to_nat k). rewrite N2Nat.id. split; [lia | done]. }
    destruct (decide (k = N.of_nat (S m))) as [|Hne]; [done|]. exfalso.
    assert (suffixed b (N.of_nat (S m)) ∈ keys) as Hin' by (apply Hall; lia).
    apply Hkeys in Hin' as [Hb | (j & Hj & Heq)].
    - by apply suffixed_neq_base in Hb.
    - apply suffixed_inj in Heq. lia. }
  rewrite Hkey. f_equal. apply IH. intros x.
  rewrite elem_of_union, elem_of_singleton, Hkeys. split.
  - intros [-> | [-> | (j & Hj & ->)]].
    + right. exists (S m). split; [lia | done].
    + by left.
    + right. exists j. split; [lia | done].
  - intros [-> | (j & Hj & ->)].
    + right. by left.
    + destruct (decide (j = S m)) as [->|]; [by left|].
      right. right. exists j. split; [lia | done].
Qed.

Lemma key_trace_same_name (ul : text → N → text → text) (nm : text) (n : nat) :
  key_trace ul ∅ (replicate n nm)
  = numbered_keys (normalize_job_name_for_identifier ul nm) n.
Proof.
  destruct n as [|n]; [done|]. cbn [replicate key_trace numbered_keys].
  rewrite (allocate_base ul ∅ nm) by apply not_elem_of_empty. f_equal.
  apply (key_trace_numbered ul _ nm O n). intros x.
  rewrite elem_of_union, elem_of_singleton, elem_of_empty. split.
  - intros [-> | []]. by left.
  - intros [-> | (j & Hj & _)]; [by left | lia].
Qed.

(** X4: jobs that all carry one name get the keys [base], [base_1],
    [base_2], ... in job order, for any number of jobs: the keys in use are
    the first ones of that sequence. *)
Theorem same_name_keys ul rf yl yd jobs (nm : text) (flag : bool) (tf : option text) (h : heap) :
  let r := export_jobs_yml ul rf yl yd jobs flag tf h in
  Forall (λ j, name j = nm) jobs →
  (export_jobs (locals r)).*1
  = numbered_keys (normalize_job_name_for_identifier ul nm) (length (export_jobs (locals r))).
Proof.
  intros r Hall.
  destruct (export_run ul rf yl yd jobs flag tf h) as (Hkeys & Hle & _).
  fold r in Hkeys, Hle. rewrite Hkeys at 1.
  assert (name <$> jobs = replicate (length jobs) nm) as ->.
  { symmetry. apply replicate_as_Forall_2; [by rewrite length_fmap|].
    apply Forall_fmap. eapply Forall_impl; [exact Hall|]. by intros j <-. }
  rewrite take_replicate, Nat.min_l by done. apply key_trace_same_name.
Qed.

Lemma same_name_keys_witness :
  (export_jobs (locals (export_jobs_yml plain_lower no_file no_fields plain_dump
                          three_builds false None []))).*1
  = [cps "build"; cps "build_1"; cps "build_2"].
Proof.
  rewrite (same_name_keys plain_lower no_file no_fields plain_dump three_builds
             (cps "Build") false None []).
  - reflexivity.
  - by repeat constructor.
Defined.

Lemma key_trace_suffix_iff (ul : text → N → text → text) (keys : gset text) names (i : nat) (n k : text) :
  names !! i = Some n → key_trace ul keys names !! i = Some k →
  (k ≠ normalize_job_name_for_identifier ul n
   ↔ normalize_job_name_for_identifier ul n ∈ keys
     ∨ normalize_job_name_for_identifier ul n ∈ take i (key_trace ul keys names)).
Proof.
  revert keys i. induction names as [|n0 names IH]; intros keys i; [done|].
  destruct i as [|i]; cbn [key_trace lookup list_lookup take].
  - intros [= ->] [= <-]. rewrite elem_of_nil. split.
    + intros Hne. left. destruct (decide (normalize_job_name_for_identifier ul n ∈ keys));
        [done|]. exfalso. apply Hne. by apply allocate_base.
    + intros [Hin | []] Heq. apply (allocate_fresh ul keys n). by rewrite Heq.
  - intros Hn Hk. rewrite (IH _ i Hn Hk), elem_of_union, elem_of_singleton, elem_of_cons.
    tauto.
Qed.

(** X5: the key of a job differs from its normalized name exactly when an
    earlier job already holds that name as its key, be it as its own
    normalized name or as a suffixed key: after two jobs "Build" a job
    "Build 1" gets [build_1_1]. *)
Theorem suffix_iff_taken ul rf yl yd jobs (flag : bool) (tf : option text) (h : heap)
    (i : nat) (job : JobDefinition) (key : text) :
  let r := export_jobs_yml ul rf yl yd jobs flag tf h in
  jobs !! i = Some job → (export_jobs (locals r)).*1 !! i = Some key →
  (key ≠ normalize_job_name_for_identifier ul (name job)
   ↔ normalize_job_name_for_identifier ul (name job) ∈ take i (export_jobs (locals r)).*1).
Proof.
  intros r Hjob Hkey.
  destruct (export_run ul rf yl yd jobs flag tf h) as (Hkeys & _). fold r in Hkeys.
  rewrite Hkeys in Hkey |- *.
  assert (i < length (export_jobs (locals r)))%nat as Hi.
  { apply lookup_lt_Some in Hkey. by rewrite key_trace_length, length_take in Hkey; lia. }
  rewrite (key_trace_suffix_iff ul ∅
             (take (length (export_jobs (locals r))) (name <$> jobs)) i (name job) key);
    [|  |exact Hkey].
  - rewrite elem_of_empty. tauto.
  - rewrite lookup_take_lt by done. by rewrite list_lookup_fmap, Hjob.
Qed.

Lemma suffix_iff_taken_witness :
  let r := export_jobs_yml plain_lower no_file no_fields plain_dump build_one_jobs false None [] in
  (export_jobs (locals r)).*1 = [cps "build"; cps "build_1"; cps "build_1_1"]
  ∧ (cps "build_1_1" ≠ normalize_job_name_for_identifier plain_lower (cps "Build 1")
     ↔ normalize_job_name_for_identifier plain_lower (cps "Build 1")
         ∈ take 2 (export_jobs (locals r)).*1).
Proof.
  split; [reflexivity|].
  apply (suffix_iff_taken plain_lower no_file no_fields plain_dump build_one_jobs
           false None [] 2 (job_with "Build 1" []) (cps "build_1_1"));
    reflexivity.
Defined.

(** ** The template merger *)

Lemma bind_eval {A B} (m : M A) (k : A → M B) h a h1 :
  m h = (inr a, h1) → bind m k h = k a h1.
Proof. unfold bind. by intros ->. Qed.

Lemma bind_fail {A B} (m : M A) (k : A → M B) h e h1 :
  m h = (inl e, h1) → bind m k h = (inl e, h1).
Proof. unfold bind. by intros ->. Qed.

Lemma bind_assoc {A B C} (m : M A) (f : A → M B) (g : B → M C) h :
  bind (bind m f) g h = bind m (λ a, bind (f a) g) h.
Proof. unfold bind. by destruct (m h) as [[e|a] h1]. Qed.

Lemma dict_items_scalar v h : (∀ j, v ≠ VRef j) → dict_items v h = (inl TypeError, h).
Proof. intros Hv. destruct v as [| | | |j]; try done. by destruct (Hv j). Qed.

Lemma dict_items_dict (h : heap) (l : loc) items :
  h !! l = Some (ODict items) → dict_items (VRef l) h = (inr (l, items), h).
Proof. unfold dict_items. by intros ->. Qed.

Lemma descend_scalar parts v h :
  (∀ j, v ≠ VRef j) → parts ≠ [] → descend parts v h = (inl TypeError, h).
Proof.
  intros Hv Hp. destruct parts as [|part parts]; [done|]. cbn [descend].
  by rewrite (bind_fail _ _ h TypeError h (dict_items_scalar v h Hv)).
Qed.

(** X6: a template path of two or more parts whose first part holds a
    scalar in the job dictionary makes the call raise [TypeError]; the copy
    has been made by then, and nothing else is written. *)
Theorem path_through_scalar_raises (h : heap) (l : loc) items
    (path p1 p2 : text) (rest : list text) (v : value) (t : text) tc :
  h !! l = Some (ODict items) →
  py_split dot path = p1 :: p2 :: rest →
  dict_get p1 items = Some v → (∀ j, v ≠ VRef j) →
  apply_templated_fields (VRef l) ((path, t) :: tc) h
  = (inl TypeError, h ++ [ODict items]).
Proof.
  intros Hl Hsplit Hget Hv. unfold apply_templated_fields.
  assert (shallow_copy (VRef l) h = (inr (VRef (length h)), h ++ [ODict items])) as Hcopy.
  { unfold shallow_copy. by rewrite Hl. }
  rewrite (bind_eval _ _ _ _ _ Hcopy). apply bind_fail.
  cbn [set_all]. apply bind_fail. unfold set_nested_value. rewrite Hsplit.
  assert ((h ++ [ODict items]) !! length h = Some (ODict items)) as Hn0
    by by apply list_lookup_middle.
  change (removelast (p1 :: p2 :: rest)) with (p1 :: removelast (p2 :: rest)).
  cbn [descend]. rewrite bind_assoc.
  rewrite (bind_eval _ _ _ _ _ (dict_items_dict _ _ _ Hn0)). cbn [fst snd].
  rewrite Hget.
  destruct (removelast (p2 :: rest)) as [|q parts].
  - cbn [descend]. rewrite (bind_eval _ _ _ v (h ++ [ODict items])) by done.
    apply bind_fail. by apply dict_items_scalar.
  - apply bind_fail. by apply descend_scalar.
Qed.

Lemma path_through_scalar_raises_witness :
  apply_templated_fields (VRef 0%nat) [(cps "b.x", cps "X")] example_store
  = (inl TypeError,
     example_store ++ [ODict [(cps "b", VStr (cps "old")); (cps "c", VInt 1%Z)]]).
Proof.
  apply (path_through_scalar_raises example_store 0%nat _ (cps "b.x") (cps "b") (cps "x") []
           (VStr (cps "old")) (cps "X") []); [reflexivity | reflexivity | reflexivity |].
  intros j. discriminate.
Defined.

Lemma dict_set_absent k v items :
  dict_get k items = None → dict_set k v items = items ++ [(k, v)].
Proof.
  induction items as [|[k0 v0] items IH]; [done|]. cbn [dict_get dict_set].
  destruct (decide (k0 = k)); [done|]. intros H. by rewrite IH.
Qed.

Lemma store_last (pre : heap) (o o' : obj) :
  store (length pre) o' (pre ++ [o]) = (inr tt, pre ++ [o']).
Proof.
  unfold store. f_equal. rewrite insert_app_r_alt by lia.
  by rewrite Nat.sub_diag.
Qed.

(** Setting a path whose first part is absent, on the dictionary that ends
    the store. *)
Lemma set_parts_fresh (t : text) ps (pre : heap) its (p : text) :
  dict_get p its = None →
  bind (descend (removelast (p :: ps)) (VRef (length pre)))
       (λ d, bind (dict_items d)
               (λ di, store (fst di)
                        (ODict (dict_set (List.last (p :: ps) []) (VStr t) (snd di)))))
       (pre ++ [ODict its])
  = (inr tt, pre ++ [ODict (its ++ [(p, fst (nest (S (length pre)) ps t))])]
             ++ snd (nest (S (length pre)) ps t)).
Proof.
  revert pre its p. induction ps as [|q ps IH]; intros pre its p Hget.
  - cbn [removelast List.last descend nest fst snd].
    rewrite (bind_eval _ _ _ (VRef (length pre)) (pre ++ [ODict its])) by done.
    rewrite (bind_eval _ _ _ _ _ (dict_items_dict _ _ _ (list_lookup_middle pre [] _ _ eq_refl))).
    cbn [fst snd]. rewrite dict_set_absent by done. rewrite store_last.
    by rewrite app_nil_r.
  - change (removelast (p :: q :: ps)) with (p :: removelast (q :: ps)).
    change (List.last (p :: q :: ps) []) with (List.last (q :: ps) []).
    cbn [descend]. rewrite !bind_assoc.
    rewrite (bind_eval _ _ _ _ _ (dict_items_dict _ _ _ (list_lookup_middle pre [] _ _ eq_refl))).
    cbn [fst snd]. rewrite Hget. rewrite !bind_assoc.
    rewrite (bind_eval (alloc (ODict [])) _ _ (length (pre ++ [ODict its]))
               ((pre ++ [ODict its]) ++ [ODict []])) by done.
    rewrite !bind_assoc. rewrite dict_set_absent by done.
    assert (store (length pre) (ODict (its ++ [(p, VRef (length (pre ++ [ODict its])))]))
              ((pre ++ [ODict its]) ++ [ODict []])
            = (inr tt, (pre ++ [ODict (its ++ [(p, VRef (length (pre ++ [ODict its])))])])
                       ++ [ODict []])) as Hstore.
    { unfold store. f_equal. rewrite <- app_assoc.
      rewrite insert_app_r_alt by lia. rewrite Nat.sub_diag. cbn.
      by rewrite <- app_assoc. }
    rewrite (bind_eval _ _ _ _ _ Hstore).
    assert (length (pre ++ [ODict its]) = S (length pre)) as Hlen
      by (rewrite length_app; simpl; lia).
    rewrite Hlen.
    set (pre' := pre ++ [ODict (its ++ [(p, VRef (S (length pre)))])]).
    assert (S (length pre) = length pre') as Hlen'
      by (unfold pre'; rewrite length_app; simpl; lia).
    rewrite Hlen'. rewrite (IH pre' [] q eq_refl).
    cbn [nest fst snd app]. rewrite <- Hlen'. unfold pre'.
    by rewrite <- app_assoc.
Qed.

(** X7: a template path whose first part is absent from the job dictionary
    touches no object of the input: the copy gets one new entry at its end,
    holding the value (one part) or the first of a chain of new
    dictionaries, one per further part, that ends in the value. *)
Theorem absent_path_builds_chain (h : heap) (l : loc) items
    (path p : text) (ps : list text) (t : text) :
  h !! l = Some (ODict items) →
  py_split dot path = p :: ps →
  dict_get p items = None →
  apply_templated_fields (VRef l) [(path, t)] h
  = (inr (VRef (length h)),
     h ++ [ODict (items ++ [(p, fst (nest (S (length h)) ps t))])]
       ++ snd (nest (S (length h)) ps t)).
Proof.
  intros Hl Hsplit Hget. unfold apply_templated_fields.
  assert (shallow_copy (VRef l) h = (inr (VRef (length h)), h ++ [ODict items])) as Hcopy.
  { unfold shallow_copy. by rewrite Hl. }
  rewrite (bind_eval _ _ _ _ _ Hcopy). cbn [set_all]. rewrite !bind_assoc.
  unfold set_nested_value. rewrite Hsplit.
  rewrite (bind_eval _ _ _ tt _ (set_parts_fresh t ps h items p Hget)).
  reflexivity.
Qed.

Lemma absent_path_builds_chain_witness :
  apply_templated_fields (VRef 1%nat) [(cps "x.y.z", cps "V")] example_store
  = (inr (VRef 2%nat),
     example_store
     ++ [ ODict [(cps "a", VRef 0%nat); (cps "x", VRef 3%nat)];
          ODict [(cps "y", VRef 4%nat)];
          ODict [(cps "z", VStr (cps "V"))] ]).
Proof.
  apply (absent_path_builds_chain example_store 1%nat [(cps "a", VRef 0%nat)]
           (cps "x.y.z") (cps "x") [cps "y"; cps "z"] (cps "V")); reflexivity.
Defined.

Lemma dict_get_set_eq k v items : dict_get k (dict_set k v items) = Some v.
Proof.
  induction items as [|[k0 v0] items IH]; cbn [dict_set dict_get].
  - by rewrite decide_True.
  - destruct (decide (k0 = k)) as [->|Hne]; cbn [dict_get].
    + by rewrite decide_True.
    + by rewrite decide_False.
Qed.

Lemma set_nested_value_single (path k t : text) h its (n0 : nat) h' :
  h !! n0 = Some (ODict its) → py_split dot path = [k] →
  set_nested_value (VRef n0) path (VStr t) h = (inr tt, h') →
  ∃ its', h' !! n0 = Some (ODict its') ∧ dict_get k its' = Some (VStr t).
Proof.
  intros Htop Hsplit. unfold set_nested_value. rewrite Hsplit.
  cbn [removelast List.last descend].
  rewrite (bind_eval _ _ _ (VRef n0) h) by done.
  rewrite (bind_eval _ _ _ _ _ (dict_items_dict _ _ _ Htop)). cbn [fst snd].
  intros [= <-]. eexists. split.
  - apply list_lookup_insert_eq. by apply lookup_lt_Some in Htop.
  - apply dict_get_set_eq.
Qed.

Lemma set_all_app result tc1 tc2 h h' :
  set_all result (tc1 ++ tc2) h = (inr tt, h') →
  ∃ hm, set_all result tc1 h = (inr tt, hm) ∧ set_all result tc2 hm = (inr tt, h').
Proof.
  revert h. induction tc1 as [|[path t] tc1 IH]; intros h.
  - intros H. by exists h.
  - cbn [app set_all]. intros ([] & h1 & Hset & Hrest)%bind_inr.
    destruct (IH h1 Hrest) as (hm & H1 & H2). exists hm. split; [|done].
    by rewrite (bind_eval _ _ _ _ _ Hset).
Qed.

(** X8: last write wins at the top level.  When the call returns, a key set
    by a one-part template path holds the string of the last such path in
    the order of the template (in a store built bottom-up). *)
Theorem last_write_wins (h : heap) (l : loc) items tc1 tc2 (p k t : text) r h' :
  h !! l = Some (ODict items) → stratified h l →
  py_split dot p = [k] →
  (∀ p' t', (p', t') ∈ tc2 → py_split dot p' ≠ [k]) →
  apply_templated_fields (VRef l) (tc1 ++ (p, t) :: tc2) h = (inr r, h') →
  ∃ items', h' !! length h = Some (ODict items')
    ∧ dict_get k items' = Some (VStr t).
Proof.
  intros Hl Hstrat Hsplit Hlater Happly.
  assert (l < length h)%nat as Hlt by by apply lookup_lt_Some in Hl.
  unfold apply_templated_fields in Happly.
  apply bind_inr in Happly as (r0 & h1 & Hcopy & Hrest).
  unfold shallow_copy in Hcopy. rewrite Hl in Hcopy. injection Hcopy as <- <-.
  apply bind_inr in Hrest as ([] & h2 & Hset & Hret). injection Hret as _ <-.
  assert (sharing_inv l (length h) items (h ++ [ODict items])) as Hinv.
  { split; [rewrite length_app; simpl; lia|]. split; [by apply lookup_app_l_Some|].
    intros i its Hi. rewrite lookup_snoc_Some. intros [[Hi' Hlook] | [-> [= <-]]].
    - apply (stratified_safe h l i); [done | lia | done].
    - by apply (stratified_safe h l l). }
  apply set_all_app in Hset as (hm & H1 & H2).
  apply (set_all_top l (length h) items Hlt) with (its := items) in H1
    as (Hinvm & itsm & Htopm & _); [|done|by apply list_lookup_middle].
  cbn [set_all] in H2. apply bind_inr in H2 as ([] & h3 & Hone & H2).
  destruct (set_nested_value_single p k t hm itsm (length h) h3 Htopm Hsplit Hone)
    as (its3 & Htop3 & Hget3).
  apply (set_nested_value_top l (length h) items Hlt) with (its := itsm) in Hone
    as (Hinv3 & _); [|done..].
  apply (set_all_top l (length h) items Hlt) with (its := its3) in H2
    as (_ & items' & Htop' & Hkeep); [|done..].
  exists items'. split; [done|]. by apply Hkeep.
Qed.

Lemma last_write_wins_witness :
  ∃ items',
    snd (apply_templated_fields (VRef 1%nat)
           [(cps "a", cps "first"); (cps "a", cps "second"); (cps "x.y", cps "V")]
           example_store) !! 2%nat = Some (ODict items')
    ∧ dict_get (cps "a") items' = Some (VStr (cps "second")).
Proof.
  destruct (apply_templated_fields (VRef 1%nat)
              [(cps "a", cps "first"); (cps "a", cps "second"); (cps "x.y", cps "V")]
              example_store) as [res h'] eqn:Hrun.
  assert (res = inr (VRef 2%nat)) as -> by (by vm_compute in Hrun; injection Hrun as <- _).
  apply (last_write_wins example_store 1%nat [(cps "a", VRef 0%nat)]
           [(cps "a", cps "first")] [(cps "x.y", cps "V")]
           (cps "a") (cps "a") (cps "second") (VRef 2%nat) h').
  - reflexivity.
  - intros i its Hi Hlook. destruct i as [|[|i]]; [| |lia].
    + injection Hlook as <-. by repeat constructor.
    + injection Hlook as <-. by repeat constructor.
  - reflexivity.
  - intros p' t' Hin. apply list_elem_of_singleton in Hin. injection Hin as -> ->.
    by vm_compute.
  - exact Hrun.
Defined.

(** ** Escaping *)

Lemma replace_scan_absent old new s :
  contains old s = false → replace_scan old new O s = s.
Proof.
  induction s as [|c s IH]; [done|]. cbn [contains].
  intros [H1 H2]%orb_false_iff. rewrite replace_scan_nomatch by done.
  by rewrite IH.
Qed.

(** X9: both substitutions are idempotent: escaping an escaped text, or
    unescaping an unescaped text, changes nothing. *)
Theorem escape_unescape_idempotent (t : text) :
  escape_curly_braces (escape_curly_braces t) = escape_curly_braces t
  ∧ unescape_curly_braces (unescape_curly_braces t) = unescape_curly_braces t.
Proof.
  split.
  - set (e := escape_curly_braces t).
    assert (contains [123] e = false ∧ contains [125] e = false) as [H1 H2].
    { split; apply not_true_is_false; intros H; apply contains_char in H;
        by destruct (escape_no_brace _ _ H). }
    unfold escape_curly_braces at 1.
    change (py_replace (cps "{") (cps "<[<") e) with (replace_scan [123] (cps "<[<") O e).
    rewrite (replace_scan_absent _ _ _ H1).
    change (py_replace (cps "}") (cps ">]>") e) with (replace_scan [125] (cps ">]>") O e).
    by apply replace_scan_absent.
  - destruct (unescape_no_sentinel t) as [H1 H2].
    set (u := unescape_curly_braces t) in *. rewrite (unescape_unfold u).
    rewrite (replace_scan_absent _ _ _ H1). by apply replace_scan_absent.
Qed.

(** ** The normalizer *)

Lemma lower_from_ascii ul before x :
  Forall (λ c, c < 128) x → lower_from ul before x = ascii_lower <$> x.
Proof.
  intros Hx. revert before. induction Hx as [|c x Hc Hx IH]; intros before; [done|].
  cbn [lower_from]. rewrite IH, fmap_cons.
  by rewrite (proj2 (N.ltb_lt c 128) Hc).
Qed.

(** X10: letter case is ignored: two ASCII names that are equal once their
    capital letters are lowered get the same base identifier. *)
Theorem normalize_ignores_case ul (x y : text) :
  Forall (λ c, c < 128) x → Forall (λ c, c < 128) y →
  ascii_lower <$> x = ascii_lower <$> y →
  normalize_job_name_for_identifier ul x = normalize_job_name_for_identifier ul y.
Proof.
  intros Hx Hy Heq. unfold normalize_job_name_for_identifier, py_lower.
  by rewrite (lower_from_ascii ul [] x Hx), (lower_from_ascii ul [] y Hy), Heq.
Qed.

Lemma normalize_ignores_case_witness :
  normalize_job_name_for_identifier plain_lower (cps "Daily BUILD")
  = normalize_job_name_for_identifier plain_lower (cps "daily build").
Proof.
  apply normalize_ignores_case.
  - vm_compute. repeat constructor.
  - vm_compute. repeat constructor.
  - reflexivity.
Defined.

Lemma sub_non_ident_space s :
  sub_non_ident (py_replace (cps " ") (cps "_") s) = sub_non_ident s.
Proof.
  change (py_replace (cps " ") (cps "_") s) with (replace_scan [32] [95] O s).
  rewrite replace_scan_char. unfold sub_non_ident.
  induction s as [|c s IH]; [done|]. cbn [flat_map]. rewrite fmap_app, IH, fmap_cons.
  destruct (N.eqb_spec c 32) as [->|Hc]; [done|]. done.
Qed.

(** X11: the replacement of spaces (line 16) is subsumed by the substitution
    of line 19: the result is the same without it. *)
Theorem normalize_without_space_step ul (x : text) :
  normalize_job_name_for_identifier ul x
  = py_strip is_underscore (sub_underscore_runs (sub_non_ident (py_lower ul x))).
Proof. unfold normalize_job_name_for_identifier. by rewrite sub_non_ident_space. Qed.

Lemma drop_while_nil f s : drop_while f s = [] ↔ Forall (λ c, f c = true) s.
Proof.
  induction s as [|c s IH]; [by split; [constructor|]|]. cbn [drop_while].
  destruct (f c) eqn:E.
  - rewrite IH. split; [by constructor | by inversion 1].
  - split; [done|]. inversion 1; congruence.
Qed.

Lemma py_strip_nil f s : py_strip f s = [] ↔ Forall (λ c, f c = true) s.
Proof.
  unfold py_strip. split.
  - intros H. apply (f_equal (@rev N)) in H. rewrite rev_involutive in H. simpl in H.
    apply drop_while_nil in H. apply drop_while_nil.
    destruct (drop_while f s) as [|c t] eqn:E; [done|].
    pose proof (drop_while_head f s c) as Hc. rewrite E in Hc. specialize (Hc eq_refl).
    rewrite Forall_forall in H. specialize (H c). rewrite Hc in H.
    exfalso. assert (false = true) as Hf; [|discriminate Hf].
    apply H. apply list_elem_of_In, in_rev. rewrite rev_involutive. by left.
  - intros H. apply drop_while_nil in H. by rewrite H.
Qed.

Lemma sub_underscore_runs_Forall (P : N → Prop) s :
  Forall P s → Forall P (sub_underscore_runs s).
Proof.
  induction 1 as [|c s Hc Hs IH]; [constructor|]. cbn [sub_underscore_runs].
  destruct (c =? underscore); [|by constructor].
  destruct s as [|d s]; [by repeat constructor|].
  destruct (d =? underscore); [exact IH | by constructor].
Qed.

Lemma sub_underscore_runs_keeps c s :
  c ∈ s → c ≠ underscore → c ∈ sub_underscore_runs s.
Proof.
  intros Hin Hc. induction s as [|d s IH]; [done|].
  apply elem_of_cons in Hin. cbn [sub_underscore_runs].
  destruct (N.eqb_spec d underscore) as [->|Hd].
  - destruct Hin as [->|Hin]; [done|]. specialize (IH Hin).
    destruct s as [|e s]; [by apply elem_of_nil in Hin|].
    destruct (e =? underscore); [exact IH | by right].
  - destruct Hin as [->|Hin]; [by left | right; by apply IH].
Qed.

Lemma sub_underscore_runs_all_underscores s :
  Forall (λ c, is_underscore c = true) (sub_underscore_runs s)
  ↔ Forall (λ c, is_underscore c = true) s.
Proof.
  split; [|apply sub_underscore_runs_Forall].
  rewrite !Forall_forall. intros H c Hc. unfold is_underscore.
  destruct (N.eqb_spec c underscore) as [|Hne]; [done|].
  specialize (H c (sub_underscore_runs_keeps c s Hc Hne)).
  unfold is_underscore in H. by apply N.eqb_eq in H.
Qed.

Lemma sub_non_ident_lower_underscore c :
  is_underscore (if is_ident_char (ascii_lower c) then ascii_lower c else underscore) = true
  ↔ is_alnum c = false.
Proof.
  unfold is_underscore, is_ident_char, ascii_lower, is_alnum, underscore.
  destruct (N.leb_spec 65 c), (N.leb_spec c 90); cbn [andb orb];
    repeat match goal with
           | |- context [?a <=? ?b] => destruct (N.leb_spec a b)
           end; cbn [andb orb];
    repeat match goal with
           | |- context [if ?a =? ?b then _ else _] => destruct (N.eqb_spec a b)
           end;
    repeat match goal with
           | |- context [?a =? ?b] => destruct (N.eqb_spec a b)
           end; cbn [andb orb];
    split; intros; try done; try lia.
Qed.

(** X12: the empty identifier.  An ASCII name normalizes to the empty string
    exactly when it holds no letter and no digit. *)
Theorem normalize_empty_iff ul (x : text) :
  Forall (λ c, c < 128) x →
  (normalize_job_name_for_identifier ul x = [] ↔ Forall (λ c, is_alnum c = false) x).
Proof.
  intros Hx. unfold normalize_job_name_for_identifier, py_lower.
  rewrite sub_non_ident_space, (lower_from_ascii ul [] x Hx).
  rewrite py_strip_nil, sub_underscore_runs_all_underscores.
  unfold sub_non_ident. rewrite <- list_fmap_compose, Forall_fmap.
  split; intros H; eapply Forall_impl; try exact H;
    intros c Hc; by apply sub_non_ident_lower_underscore.
Qed.

Lemma normalize_empty_iff_witness :
  normalize_job_name_for_identifier plain_lower (cps "!!! -- ???") = [].
Proof.
  apply normalize_empty_iff.
  - vm_compute. repeat constructor.
  - vm_compute. repeat constructor.
Defined.

(** ** The logged message *)

Lemma drop_while_app_all f a b :
  Forall (λ c, f c = true) a → drop_while f (a ++ b) = drop_while f b.
Proof. induction 1 as [|c a Hc Ha IH]; [done|]. cbn. by rewrite Hc. Qed.

Lemma py_strip_trailing f a tail :
  (∀ c, head a = Some c → f c = false) →
  (∀ c, last a = Some c → f c = false) →
  Forall (λ c, f c = true) tail →
  py_strip f (a ++ tail) = a.
Proof.
  intros Hh Hl Ht. unfold py_strip.
  destruct a as [|c a].
  - cbn [app]. rewrite (proj2 (drop_while_nil f tail) Ht). done.
  - rewrite (drop_while_id f ((c :: a) ++ tail)) by (intros d [= <-]; by apply Hh).
    rewrite rev_app_distr, drop_while_app_all.
    + rewrite drop_while_id; [apply rev_involutive|].
      intros d. rewrite head_rev. apply Hl.
    + rewrite Forall_forall in *. intros d Hd. apply Ht.
      apply list_elem_of_In. apply list_elem_of_In, in_rev in Hd. done.
Qed.

Lemma error_message_snoc ds d :
  error_message (ds ++ [d]) = error_message ds ++ dup_line d.
Proof. unfold error_message. by rewrite foldl_app. Qed.

Lemma error_message_head ds : head (error_message ds) = Some 10060.
Proof.
  induction ds as [|d ds IH] using rev_ind; [done|].
  rewrite error_message_snoc. by destruct (error_message ds).
Qed.

(** X13: the text of the logged message: the header, one line per entry of
    [duplicate_jobs] with the job name as it is between quotes, and the
    closing quote of the last line as its end (the blank and the line break
    after it are stripped). *)
Theorem duplicate_log_text ul rf yl yd jobs (flag : bool) (tf : option text) (h : heap) :
  let r := export_jobs_yml ul rf yl yd jobs flag tf h in
  raised r = Some duplicate_error →
  ∃ ds d, duplicate_jobs (locals r) = ds ++ [d]
    ∧ log r = [error_message ds ++ cps "  - Job '" ++ dup_name d ++ cps "'"].
Proof.
  intros r Hr.
  destruct (export_run ul rf yl yd jobs flag tf h) as (_ & _ & Hend). fold r in Hend.
  destruct Hend as [(_ & _ & _ & Hd & Hne & Hlog) | [(Hr' & _) | (e & Hr' & Hp & _)]].
  - rewrite <- Hd in Hne, Hlog.
    destruct (duplicate_jobs (locals r)) as [|d ds _] using rev_ind; [done|].
    exists ds, d. split; [done|]. rewrite Hlog. f_equal.
    rewrite error_message_snoc. unfold dup_line.
    change (cps "' " ++ [nl]) with ([39] ++ [32; 10]). change (cps "'") with [39].
    rewrite !app_assoc. apply py_strip_trailing.
    + intros c Hc. rewrite <- !app_assoc in Hc.
      pose proof (error_message_head ds) as Hh.
      destruct (error_message ds) as [|c0 rest]; [done|].
      injection Hh as ->. injection Hc as <-. reflexivity.
    + intros c. rewrite last_snoc. by intros [= <-].
    + by repeat constructor.
  - congruence.
  - rewrite Hr' in Hr. injection Hr as ->.
    exfalso. eapply propagated_not_value; [exact Hp | reflexivity].
Qed.

Lemma duplicate_log_text_witness :
  log (export_jobs_yml plain_lower no_file no_fields plain_dump build_one_jobs false None [])
  = [ error_header ++ cps "  - Job 'Build' " ++ [nl] ++ cps "  - Job 'Build 1'" ].
Proof.
  destruct (duplicate_log_text plain_lower no_file no_fields plain_dump build_one_jobs
              false None [] eq_refl) as (ds & d & Hd & Hlog).
  rewrite Hlog.
  assert (ds ++ [d]
          = [ {| dup_name := cps "Build"; dup_identifier := cps "build_1";
                 dup_base_key := cps "build" |} ]
            ++ [ {| dup_name := cps "Build 1"; dup_identifier := cps "build_1_1";
                    dup_base_key := cps "build_1" |} ]) as Heq
    by (rewrite <- Hd; reflexivity).
  apply app_inj_tail in Heq as [-> ->]. reflexivity.
Defined.

(** ** What the export raises *)

(** X14: the export raises nothing but the duplicate-name [ValueError], a
    payload that comes from reading or parsing the template or from a job's
    [to_load_format], and the [TypeError] or [AttributeError] of the
    merger. *)
Theorem raised_exceptions ul rf yl yd jobs (flag : bool) (tf : option text) (h : heap)
    (e : exn) :
  raised (export_jobs_yml ul rf yl yd jobs flag tf h) = Some e →
  e = duplicate_error ∨ (∃ p, e = External p) ∨ e = TypeError ∨ e = AttributeError.
Proof.
  intros Hr.
  destruct (export_run ul rf yl yd jobs flag tf h) as (_ & _ & Hend).
  destruct Hend as [(Hr' & _) | [(Hr' & _) | (e' & Hr' & Hp & _)]].
  - left. congruence.
  - congruence.
  - rewrite Hr' in Hr. injection Hr as <-. right.
    destruct Hp as [Hp | [-> | ->]]; [by left | right; by left | right; by right].
Qed.

Lemma raised_exceptions_witness :
  duplicate_error = duplicate_error
  ∨ (∃ p, duplicate_error = External p)
  ∨ duplicate_error = TypeError ∨ duplicate_error = AttributeError.
Proof.
  apply (raised_exceptions plain_lower no_file no_fields plain_dump three_builds
           false None [] duplicate_error).
  reflexivity.
Defined.
